(** * Elderly semantic filter: prefilter, checkpoint scan and batch run

    A shallow embedding of [src/data_processing/semantic_filter_elderly.py]:
    the keyword / age-pattern prefilter [maybe_elderly], the checkpoint scan
    at the head of [run], the per-row retry loop, the append to the output
    table and the export of the high-confidence subset.

    Python [str] values are sequences of Unicode code points, here [list N].
    Literals are written as in the source and decoded from UTF-8. *)

From Stdlib Require Import ZArith NArith QArith List Ascii String Lia Bool Permutation.
From stdpp Require Import base option list gmap sets.

Local Open Scope N_scope.

(** ** Python strings *)

Abbreviation pystr := (list N).

Module Str.

(** Bytes of a literal of this file. *)
Fixpoint bytes (s : string) : list N :=
  match s with
  | EmptyString => []
  | String a r => N_of_ascii a :: bytes r
  end.

(** UTF-8 decoding of well-formed input (one to four bytes per code point). *)
Fixpoint utf8 (bs : list N) : pystr :=
  match bs with
  | [] => []
  | b0 :: r0 =>
    if b0 <? 128 then b0 :: utf8 r0
    else if b0 <? 224 then
      match r0 with
      | b1 :: r1 => ((b0 mod 32) * 64 + b1 mod 64) :: utf8 r1
      | _ => []
      end
    else if b0 <? 240 then
      match r0 with
      | b1 :: b2 :: r2 =>
        ((b0 mod 16) * 4096 + (b1 mod 64) * 64 + b2 mod 64) :: utf8 r2
      | _ => []
      end
    else
      match r0 with
      | b1 :: b2 :: b3 :: r3 =>
        ((b0 mod 8) * 262144 + (b1 mod 64) * 4096 + (b2 mod 64) * 64
         + b3 mod 64) :: utf8 r3
      | _ => []
      end
  end.

(** The Python literal written in this file as the Rocq string [s]. *)
Definition u (s : string) : pystr := utf8 (bytes s).

(** [t.startswith(k)] *)
Fixpoint startswith (k t : pystr) : bool :=
  match k, t with
  | [], _ => true
  | _ :: _, [] => false
  | a :: k', b :: t' => (a =? b) && startswith k' t'
  end.

(** [k in t] on strings: [k] occurs in [t] as a contiguous block. *)
Fixpoint contains (k t : pystr) : bool :=
  startswith k t ||
  match t with
  | [] => false
  | _ :: t' => contains k t'
  end.

(** [str.isspace] for one code point; also the set removed by [str.strip()]
    and skipped by [int()]. *)
Definition isspace (c : N) : bool :=
  ((9 <=? c) && (c <=? 13)) || ((28 <=? c) && (c <=? 32))
  || (c =? 133) || (c =? 160) || (c =? 5760)
  || ((8192 <=? c) && (c <=? 8202))
  || (c =? 8232) || (c =? 8233) || (c =? 8239) || (c =? 8287) || (c =? 12288).

Fixpoint lstrip (s : pystr) : pystr :=
  match s with
  | [] => []
  | c :: r => if isspace c then lstrip r else s
  end.

Definition rstrip (s : pystr) : pystr := rev (lstrip (rev s)).

(** [s.strip()] *)
Definition strip (s : pystr) : pystr := rstrip (lstrip s).

End Str.

Import Str.

(** ** What the Python runtime and pandas supply

    The Unicode tables of the interpreter and the float type are not part of
    the repository; the development is parametric in them.  ASCII behaviour
    is fixed by the definitions below and never consults the tables. *)

Class Runtime := {
  (** lower-casing of a code point >= 128, given the text before and after
      it (the final-sigma rule looks at the context) *)
  ucd_lower : pystr -> N -> pystr -> pystr;
  (** decimal value of a code point >= 128 that is a Unicode digit *)
  ucd_decimal : N -> option N;
  (** Python [float] *)
  float : Type;
  (** the float denoted by a decimal literal, and [float(n)] for an integer *)
  float_of_Q : Q -> float;
  (** [a >= b] *)
  float_ge : float -> float -> bool;
  (** [bool(x)] of a float *)
  float_truthy : float -> bool;
  (** [repr(x)], which is also what [str] and the csv writer produce *)
  float_repr : float -> pystr;
  (** [float(s)] on a string; [None] when it raises [ValueError] *)
  float_of_str : pystr -> option float;
  (** the value pandas gives a cell of a numeric column; [None] when the
      text is not numeric (the column is then left as strings) *)
  pd_numeric : pystr -> option float
}.

(** ** Regular expressions

    The two patterns of [maybe_elderly] use literals, character classes,
    alternation, [?] and [*] only, so [re.search] finds a match exactly when
    some block of the text belongs to the language of the pattern.  The
    matcher works by derivatives. *)

Module Re.

Inductive regex :=
| Void
| Eps
| Chr (c : N)
| Rng (lo hi : N)
| Seq (r1 r2 : regex)
| Alt (r1 r2 : regex)
| Star (r : regex).

Definition Opt (r : regex) : regex := Alt r Eps.

(** Concatenation and alternation of several patterns. *)
Definition cat (rs : list regex) : regex := fold_right Seq Eps rs.
Definition alt (rs : list regex) : regex := fold_right Alt Void rs.

(** A literal run of characters. *)
Fixpoint Lit (s : pystr) : regex :=
  match s with
  | [] => Eps
  | c :: r => Seq (Chr c) (Lit r)
  end.

Fixpoint nullable (r : regex) : bool :=
  match r with
  | Void => false
  | Eps => true
  | Chr _ => false
  | Rng _ _ => false
  | Seq r1 r2 => nullable r1 && nullable r2
  | Alt r1 r2 => nullable r1 || nullable r2
  | Star _ => true
  end.

Fixpoint deriv (a : N) (r : regex) : regex :=
  match r with
  | Void => Void
  | Eps => Void
  | Chr c => if a =? c then Eps else Void
  | Rng lo hi => if (lo <=? a) && (a <=? hi) then Eps else Void
  | Seq r1 r2 =>
    if nullable r1 then Alt (Seq (deriv a r1) r2) (deriv a r2)
    else Seq (deriv a r1) r2
  | Alt r1 r2 => Alt (deriv a r1) (deriv a r2)
  | Star r1 => Seq (deriv a r1) (Star r1)
  end.

(** The language of a pattern: [Matches r s] when [s] as a whole is matched
    by [r]. *)
Inductive Matches : regex -> pystr -> Prop :=
| MEps : Matches Eps []
| MChr (c : N) : Matches (Chr c) [c]
| MRng (lo hi c : N) : lo <= c -> c <= hi -> Matches (Rng lo hi) [c]
| MSeq (r1 r2 : regex) (s1 s2 : pystr) :
    Matches r1 s1 -> Matches r2 s2 -> Matches (Seq r1 r2) (s1 ++ s2)
| MAltL (r1 r2 : regex) (s : pystr) : Matches r1 s -> Matches (Alt r1 r2) s
| MAltR (r1 r2 : regex) (s : pystr) : Matches r2 s -> Matches (Alt r1 r2) s
| MStar0 (r : regex) : Matches (Star r) []
| MStarS (r : regex) (s1 s2 : pystr) :
    Matches r s1 -> Matches (Star r) s2 -> Matches (Star r) (s1 ++ s2).

(** [re.match(r, s)] is not [None]: some prefix of [s] matches. *)
Fixpoint match_prefix (r : regex) (s : pystr) : bool :=
  nullable r ||
  match s with
  | [] => false
  | a :: s' => match_prefix (deriv a r) s'
  end.

(** [re.search(r, s)] is not [None]: a match starts at some position. *)
Fixpoint search (r : regex) (s : pystr) : bool :=
  match_prefix r s ||
  match s with
  | [] => false
  | _ :: s' => search r s'
  end.

End Re.

Import Re.

(** ** The prefilter *)

Definition EN_HINTS : list pystr := map u
  [ "elderly"; "senior"; "older adult"; "grandma"; "grandpa"; "aging parent";
    "nursing home"; "retirement home"; "assisted living"; "dementia";
    "alzheimer"; "parkinson"; "65-year-old"; "70-year-old" ]%string.

Definition CN_HINTS : list pystr := map u
  [ "老人"; "老年"; "长者"; "独居老人"; "空巢老人"; "养老院"; "老人院";
    "护理院"; "赡养"; "看护"; "照护"; "失智"; "阿尔茨海默"; "帕金森";
    "高龄"; "爷爷"; "奶奶"; "外公"; "外婆"; "祖父"; "祖母"; "岁" ]%string.

(** The source writes both patterns as raw strings with doubled backslashes,
    [r"\\b([6-9]\\d)\\s*(?:year|yrs|yo|y/o)?[- ]?old\\b"] and
    [r"([6-9]\\d)\\s*岁"].  In a raw string the two backslashes reach the
    regex compiler as they are, where a doubled backslash is an escaped,
    literal backslash: the compiled pattern asks for a backslash followed by the
    letter b, a digit 6 to 9, a backslash, the letter d, a backslash, any
    number of letters s, and so on. *)
Definition backslash : N := 92.

Definition AGE_RE_EN : regex :=
  cat [ Chr backslash; Lit (u "b");
        Rng 54 57; Chr backslash; Lit (u "d");
        Chr backslash; Star (Lit (u "s"));
        Opt (alt [ Lit (u "year"); Lit (u "yrs"); Lit (u "yo"); Lit (u "y/o") ]);
        Opt (alt [ Chr 45; Chr 32 ]);
        Lit (u "old");
        Chr backslash; Lit (u "b") ].

Definition AGE_RE_CN : regex :=
  cat [ Rng 54 57; Chr backslash; Lit (u "d");
        Chr backslash; Star (Lit (u "s"));
        Lit (u "岁") ].

Section Prefilter.
Context `{Runtime}.

(** [text.lower()] *)
Fixpoint lower_from (before s : pystr) : pystr :=
  match s with
  | [] => []
  | c :: r =>
    (if (65 <=? c) && (c <=? 90) then [c + 32]
     else if c <? 128 then [c]
     else ucd_lower before c r) ++ lower_from (before ++ [c]) r
  end.

Definition lower (s : pystr) : pystr := lower_from [] s.

(** [maybe_elderly(text)]: the keywords first, then the two age patterns. *)
Definition maybe_elderly (text : pystr) : bool :=
  let low := lower text in
  if existsb (fun k => contains k low) EN_HINTS then true
  else if existsb (fun k => contains k text) CN_HINTS then true
  else if search AGE_RE_EN low then true
  else if search AGE_RE_CN text then true
  else false.

End Prefilter.


(** ** Integers and their decimal text *)

Module Int.

(** The decimal digits of [n], most significant first, in front of [acc]. *)
Fixpoint digits_fuel (fuel : nat) (n : N) (acc : pystr) : pystr :=
  match fuel with
  | O => acc
  | S f =>
    let acc' := (48 + n mod 10) :: acc in
    if n <? 10 then acc' else digits_fuel f (n / 10) acc'
  end.

(** A number has no more decimal digits than binary ones. *)
Definition str_of_N (n : N) : pystr :=
  digits_fuel (S (N.to_nat (N.log2 n))) n [].

(** [str(z)] for an [int]. *)
Definition str_of_int (z : Z) : pystr :=
  match z with
  | Z0 => str_of_N 0
  | Zpos p => str_of_N (Npos p)
  | Zneg p => 45 :: str_of_N (Npos p)
  end.

End Int.

Import Int.

Section Parse.
Context `{Runtime}.

Definition digit_val (c : N) : option N :=
  if (48 <=? c) && (c <=? 57) then Some (c - 48)
  else if c <? 128 then None
  else ucd_decimal c.

(** Digits with single underscores between them, as [int()] accepts them.
    [prev] tells whether the previous character was a digit. *)
Fixpoint parse_digits (acc : N) (prev : bool) (s : pystr) : option N :=
  match s with
  | [] => if prev then Some acc else None
  | c :: r =>
    if c =? 95 then (if prev then parse_digits acc false r else None)
    else match digit_val c with
         | Some d => parse_digits (10 * acc + d) true r
         | None => None
         end
  end.

(** [int(s)] on a string, base ten; [None] when it raises [ValueError]. *)
Definition int_of_str (s : pystr) : option Z :=
  match strip s with
  | [] => None
  | c :: r =>
    if c =? 43 then Z.of_N <$> parse_digits 0 false r
    else if c =? 45 then (fun n => (- Z.of_N n)%Z) <$> parse_digits 0 false r
    else Z.of_N <$> parse_digits 0 false (c :: r)
  end.

End Parse.

(** ** Tables

    A CSV file is kept as the list of its records, each a list of cell
    texts; the quoting done by the [csv] writer and undone by the readers is
    below this level.  A blank line is the record [[]]; an empty file has no
    record at all. *)

Abbreviation csv_row := (list (list N)).
Abbreviation csv_file := (list (list (list N))).

(** Position of the last (resp. first) column called [k]. *)
Fixpoint last_index (k : pystr) (names : list pystr) : option nat :=
  match names with
  | [] => None
  | n :: r =>
    match last_index k r with
    | Some j => Some (S j)
    | None => if decide (n = k) then Some O else None
    end
  end.

Fixpoint first_index (k : pystr) (names : list pystr) : option nat :=
  match names with
  | [] => None
  | n :: r => if decide (n = k) then Some O else S <$> first_index k r
  end.

(** [row[key]] for a row produced by [csv.DictReader]: the reader zips the
    field names with the cells (a later duplicate name wins) and then sets
    the names that got no cell to [None]. *)
Inductive dict_value :=
| KeyError
| PyNone
| Text (s : pystr).

Definition dictreader_get (fieldnames row : csv_row) (key : pystr) : dict_value :=
  match last_index key fieldnames with
  | None => KeyError
  | Some j =>
    match row !! j with
    | Some s => Text s
    | None => PyNone
    end
  end.

Section Checkpoint.
Context `{Runtime}.

(** One turn of the scan loop of [run]:
    [try: done_ids.add(int(row["row_id"])) except Exception: pass].
    [csv.DictReader] does not yield blank records. *)
Definition scan_row (fieldnames : csv_row) (done_ids : gset Z) (row : csv_row)
  : gset Z :=
  match row with
  | [] => done_ids
  | _ :: _ =>
    match dictreader_get fieldnames row (u "row_id") with
    | Text s =>
      match int_of_str s with
      | Some z => done_ids ∪ {[ z ]}
      | None => done_ids
      end
    | _ => done_ids
    end
  end.

(** The checkpoint scan of [run]; [None] is an output path that does not
    exist.  The first record gives the field names. *)
Definition load_done_ids (existing : option csv_file) : gset Z :=
  match existing with
  | Some (fieldnames :: rows) => foldl (scan_row fieldnames) ∅ rows
  | _ => ∅
  end.

End Checkpoint.

(** ** Values, events and the file store *)

(** Paths are compared by their components;
    [Path("a/b.csv")] is [["a"; "b.csv"]] and [Path(".")] is [[]]. *)
Abbreviation path := (list string).

Definition SUBSET_NAME : string := "elderly_llm_filtered_confident.csv".

(** [output_path.parent / "elderly_llm_filtered_confident.csv"] *)
Definition subset_path (output_path : path) : path :=
  removelast output_path ++ [SUBSET_NAME].

(** The column names of an output row, [list(out.keys())]. *)
Definition OUT_FIELDS : csv_row :=
  map u [ "row_id"; "label"; "confidence"; "reason"; "title"; "content" ]%string.

(** What a run does besides changing files, in the order it happens. *)
Inductive event :=
| Prefilter (i : nat)            (* [maybe_elderly] evaluated for row [i] *)
| ApiCall (i attempt : nat)      (* [call_chat_json] for row [i] *)
| Sleep (secs : N)               (* [time.sleep(secs)] *)
| WriteHeader                    (* [writer.writeheader()] *)
| WriteRow (row : csv_row).      (* [writer.writerow(out)] *)

Inductive fatal :=
| ConfigurationError             (* [SystemExit]: no API key *)
| InputSchemaError               (* [SystemExit]: a required column is absent *)
| ExportError.                   (* an exception of pandas while the subset is built *)

Record outcome := {
  status : option fatal;         (* [None]: [run] returned *)
  files : gmap path csv_file;
  log : list event
}.

Section Pipeline.
Context `{Runtime}.

(** A cell of the input frame as [pd.read_csv] types it. *)
Inductive cell :=
| CNaN
| CStr (s : pystr)
| CInt (z : Z)
| CFloat (x : float)
| CBool (b : bool).

(** The frame [df] that [pd.read_csv(input_path)] returns, under its
    default index: the row at position [k] of [records] has the index [k]. *)
Record dataframe := {
  columns : list pystr;
  records : list (list cell)
}.

(** A value of the parsed JSON reply.  Arrays and objects only ever get
    printed, so they are kept as their [str()]. *)
Inductive jval :=
| JNull
| JBool (b : bool)
| JInt (z : Z)
| JFloat (x : float)
| JStr (s : pystr)
| JOther (shown : pystr).

(** The dict [out] built for one row. *)
Record out := {
  row_id : nat;
  label : jval;
  confidence : float;
  reason : jval;
  title : pystr;
  content : pystr
}.

(** The service as seen from one run: what the body of the [try] gets for
    row [i] at the given attempt and prompt text, up to and including
    [json.loads]; [None] stands for any exception on the way, and for a
    reply that is not a JSON object. *)
Definition oracle := nat -> nat -> pystr -> option (gmap (list N) jval).

Definition bool_str (b : bool) : pystr := if b then u "True" else u "False".

(** [bool(c)] and [str(c)] for a cell; a missing value is a NaN, which is
    true. *)
Definition truthy (c : cell) : bool :=
  match c with
  | CNaN => true
  | CStr s => negb (bool_decide (s = []))
  | CInt z => negb (z =? 0)%Z
  | CFloat x => float_truthy x
  | CBool b => b
  end.

Definition py_str (c : cell) : pystr :=
  match c with
  | CNaN => u "nan"
  | CStr s => s
  | CInt z => str_of_int z
  | CFloat x => float_repr x
  | CBool b => bool_str b
  end.

(** [row.get(key, default)] on a row of [df.iterrows()]. *)
Definition series_get (cols : list pystr) (row : list cell) (key : pystr)
    (default : cell) : cell :=
  match first_index key cols with
  | Some j => match row !! j with Some c => c | None => CNaN end
  | None => default
  end.

(** [str(row.get(key, "") or "")] *)
Definition field (cols : list pystr) (row : list cell) (key : pystr) : pystr :=
  let c := series_get cols row key (CStr []) in
  if truthy c then py_str c else [].

(** [float(v)]; [None] when it raises. *)
Definition to_float (v : jval) : option float :=
  match v with
  | JNull => None
  | JBool b => Some (float_of_Q (if b then 1 else 0))
  | JInt z =>
    (* an integer that rounds beyond the largest float: [OverflowError] *)
    if (Z.abs z <? 2 ^ 1024 - 2 ^ 970)%Z then Some (float_of_Q (inject_Z z))
    else None
  | JFloat x => Some x
  | JStr s => float_of_str s
  | JOther _ => None
  end.

(** The text the [csv] writer puts in a cell. *)
Definition csv_text (v : jval) : pystr :=
  match v with
  | JNull => []
  | JBool b => bool_str b
  | JInt z => str_of_int z
  | JFloat x => float_repr x
  | JStr s => s
  | JOther shown => shown
  end.

(** [writer.writerow(out)] with the field names [OUT_FIELDS]. *)
Definition render (o : out) : csv_row :=
  [ str_of_int (Z.of_nat (row_id o)); csv_text (label o);
    float_repr (confidence o); csv_text (reason o); title o; content o ].

(** The dict built from a parsed reply, the rest of the [try] body. *)
Definition reply_out (i : nat) (title content : pystr)
    (parsed : gmap (list N) jval) : option out :=
  conf ← to_float (default (JInt 0) (parsed !! u "confidence"));
  Some {| row_id := i;
          label := default (JStr (u "uncertain")) (parsed !! u "label");
          confidence := conf;
          reason := default (JStr []) (parsed !! u "reason");
          title := title;
          content := content |}.

(** The body of the [try] for one attempt: the call with the prompt built
    from [text[:4000]], and the dict built from the reply. *)
Definition try_body (api : oracle) (i : nat) (title content text : pystr)
    (attempt : nat) : option out :=
  api i attempt (take 4000 text) ≫= reply_out i title content.

(** [for attempt in range(5): try: ...; break / except: sleep(2 ** attempt)];
    [None] is the [else] branch of the [for]. *)
Fixpoint attempts (call : nat -> option out) (i : nat) (todo : list nat)
  : option out * list event :=
  match todo with
  | [] => (None, [])
  | attempt :: rest =>
    match call attempt with
    | Some o => (Some o, [ApiCall i attempt])
    | None =>
      let '(r, ev) := attempts call i rest in
      (r, ApiCall i attempt :: Sleep (2 ^ N.of_nat attempt) :: ev)
    end
  end.

Definition prefilter_negative (i : nat) (title content : pystr) : out :=
  {| row_id := i;
     label := JStr (u "not_elderly");
     confidence := float_of_Q (3 # 10);
     reason := JStr (u "keyword prefilter negative");
     title := title;
     content := content |}.

Definition api_failed (i : nat) (title content : pystr) : out :=
  {| row_id := i;
     label := JStr (u "uncertain");
     confidence := float_of_Q 0;
     reason := JStr (u "API failed");
     title := title;
     content := content |}.

(** [f"{title}\n\n{content}".strip()] for the row. *)
Definition row_text (cols : list pystr) (row : list cell) : pystr :=
  strip (field cols row (u "title") ++ [10; 10] ++ field cols row (u "content")).

(** The body of the row loop of [run] up to the write: the dict [out] for
    row [i], and what was done to get it. *)
Definition process_row (api : oracle) (cols : list pystr) (i : nat)
    (row : list cell) : out * list event :=
  let title := field cols row (u "title") in
  let content := field cols row (u "content") in
  let text := row_text cols row in
  if negb (maybe_elderly text) then
    (prefilter_negative i title content, [Prefilter i])
  else
    let '(r, ev) := attempts (try_body api i title content text) i (seq 0 5) in
    (default (api_failed i title content) r, Prefilter i :: ev).

(** The open output file during the loop. *)
Record writing := {
  w_file : csv_file;             (* the records of the file so far *)
  w_writer : bool;               (* [writer is not None] *)
  w_log : list event
}.

(** The write at the end of the loop body.  Nothing has reached the file
    when the writer is created, so [st_size] is the size the file had when
    it was opened. *)
Definition write_row (was_empty : bool) (st : writing) (o : out) : writing :=
  let header := negb (w_writer st) && was_empty in
  {| w_file := w_file st ++ (if header then [OUT_FIELDS] else []) ++ [render o];
     w_writer := true;
     w_log := w_log st ++ (if header then [WriteHeader] else [])
                       ++ [WriteRow (render o)] |}.

(** [for i, row in df.iterrows(): ...], from index [i] on.  [pd.read_csv]
    numbers the rows 0, 1, 2, ... *)
Fixpoint row_loop (api : oracle) (cols : list pystr) (done_ids : gset Z)
    (was_empty : bool) (i : nat) (rows : list (list cell)) (st : writing)
  : writing :=
  match rows with
  | [] => st
  | row :: rest =>
    let st' :=
      if decide (Z.of_nat i ∈ done_ids) then st
      else
        let '(o, ev) := process_row api cols i row in
        write_row was_empty
          {| w_file := w_file st; w_writer := w_writer st;
             w_log := w_log st ++ ev |} o in
    row_loop api cols done_ids was_empty (S i) rest st'
  end.

(** [pd.read_csv] on the output file: blank lines are skipped, the first
    record names the columns, short records are filled up with missing
    values.  An empty file raises [EmptyDataError].  A record longer than
    the header is taken to raise; what pandas makes of such a file otherwise
    is not modelled. *)
Definition nonblank (r : csv_row) : bool :=
  match r with [] => false | _ => true end.

Definition pd_read_csv (file : csv_file) : option (csv_row * list csv_row) :=
  match List.filter nonblank file with
  | [] => None
  | h :: rows =>
    if forallb (fun r => length r <=? length h)%nat rows then Some (h, rows)
    else None
  end.

(** The text of column [j] in a record; a missing cell reads as empty. *)
Definition cell_at (j : nat) (r : csv_row) : pystr := default [] (r !! j).

(** One entry of the mask
    [(all_df["label"] == "elderly") & (all_df["confidence"] >= min_conf)];
    [None] when the confidence column holds text, on which [>=] raises. *)
Definition confident (jl jc : nat) (min_conf : float) (r : csv_row)
  : option bool :=
  c ← pd_numeric (cell_at jc r);
  Some (bool_decide (cell_at jl r = u "elderly") && float_ge c min_conf).

(** The frame [subset]; [to_csv] writes its header and its records.  The
    file is identified with the records selected: the formatting pandas
    gives to parsed cells when it writes them back is not modelled. *)
Definition export (file : csv_file) (min_conf : float) : option csv_file :=
  '(h, rows) ← pd_read_csv file;
  jl ← first_index (u "label") h;
  jc ← first_index (u "confidence") h;
  mask ← mapM (confident jl jc min_conf) rows;
  Some (h :: (fst <$> List.filter snd (zip rows mask))).

(** The part of [run] from the checkpoint scan to the end of the row loop:
    the output file is scanned if it is there, opened for appending (which
    creates it when it is not), and the rows are gone through. *)
Definition append_phase (api : oracle) (df : dataframe)
    (existing : option csv_file) : writing :=
  let done_ids := load_done_ids existing in
  let file := default [] existing in
  row_loop api (columns df) done_ids (bool_decide (file = [])) 0 (records df)
    {| w_file := file; w_writer := false; w_log := [] |}.

(** [run(input_path, output_path, min_conf)].  [df] is what
    [pd.read_csv(input_path)] returned, [API_KEY] the module constant, [fs]
    the files before the run. *)
Definition run (API_KEY : pystr) (api : oracle) (df : dataframe)
    (output_path : path) (min_conf : float) (fs : gmap (list string) csv_file)
  : outcome :=
  if bool_decide (API_KEY = []) then
    {| status := Some ConfigurationError; files := fs; log := [] |}
  else if negb (bool_decide (u "title" ∈ columns df)
                && bool_decide (u "content" ∈ columns df)) then
    {| status := Some InputSchemaError; files := fs; log := [] |}
  else
    let st := append_phase api df (fs !! output_path) in
    let fs1 := <[ output_path := w_file st ]> fs in
    match export (w_file st) min_conf with
    | None => {| status := Some ExportError; files := fs1; log := w_log st |}
    | Some subset =>
      {| status := None;
         files := <[ subset_path output_path := subset ]> fs1;
         log := w_log st |}
    end.

End Pipeline.

(** ** A runtime to run examples on

    ASCII-only case and digit tables, and exact decimal fractions for
    floats, printed with up to 17 fractional digits. *)

Module Decimal.

Fixpoint frac_digits (fuel : nat) (r d : N) : pystr :=
  match fuel with
  | O => []
  | S f =>
    (48 + (10 * r) / d) ::
    (if (10 * r) mod d =? 0 then [] else frac_digits f ((10 * r) mod d) d)
  end.

Definition repr (q : Q) : pystr :=
  let n := Z.abs_N (Qnum q) in
  let d := Npos (Qden q) in
  (if (Qnum q <? 0)%Z then [45] else [])
  ++ str_of_N (n / d) ++ [46] ++ frac_digits 17 (n mod d) d.

(** Digits with at most one point among them. *)
Fixpoint parse_from (any dot : bool) (num : Z) (den : positive) (s : pystr)
  : option Q :=
  match s with
  | [] => if any then Some (Qred (num # den)) else None
  | c :: r =>
    if c =? 46 then (if dot then None else parse_from any true num den r)
    else if (48 <=? c) && (c <=? 57) then
      parse_from true dot (10 * num + Z.of_N (c - 48))
                 (if dot then 10 * den else den)%positive r
    else None
  end.

Definition parse (s : pystr) : option Q :=
  match s with
  | 45 :: r => Qopp <$> parse_from false false 0 1 r
  | _ => parse_from false false 0 1 s
  end.

End Decimal.

#[export] Instance decimal_runtime : Runtime := {|
  ucd_lower := fun _ c _ => [c];
  ucd_decimal := fun _ => None;
  float := Q;
  float_of_Q := Qred;
  float_ge := fun a b => Qle_bool b a;
  float_truthy := fun a => negb (Qeq_bool a 0);
  float_repr := Decimal.repr;
  float_of_str := Decimal.parse;
  pd_numeric := Decimal.parse
|}.

(** Example data: a frame with an explicit id column, and a service that
    answers from a fixed table. *)
Module Example.

Definition df : dataframe := {|
  columns := map u [ "id"; "title"; "content" ]%string;
  records :=
    [ [ CInt 101; CStr (u "My grandma, 82"); CStr (u "she lives alone") ];
      [ CInt 102; CStr (u "car trouble"); CStr (u "my car broke down") ];
      [ CInt 103; CStr (u "nursing home visit"); CNaN ] ]
|}.

Definition elderly_reply : gmap (list N) jval :=
  {[ u "label" := JStr (u "elderly");
     u "confidence" := JFloat (92 # 100);
     u "reason" := JStr (u "mentions a grandmother") ]}.

(** Row 0 is answered at once; every other call fails. *)
Definition api_first_only : oracle :=
  fun i attempt _ =>
    match i, attempt with
    | O, O => Some elderly_reply
    | _, _ => None
    end.


Definition api_down : oracle := fun _ _ _ => None.

Definition key : pystr := u "sk-test".
Definition out_path : path := [ "Data"; "elderly_llm_filtered.csv" ]%string.

(** The row of the second example of the specification. *)
Definition car_cols : list pystr := [ u "title"; u "content" ].
Definition car_row : list cell :=
  [ CStr (u "car trouble"); CStr (u "my car broke down") ].

Definition nursing_row : list cell :=
  [ CInt 103; CStr (u "nursing home visit"); CNaN ].



End Example.

(** ** Vocabulary of the statements *)

Definition printable (c : N) : Prop := 33 <= c <= 126.
Definition is_digit (c : N) : Prop := 48 <= c <= 57.

Section Vocabulary.
Context `{Runtime}.

(** [int(row["row_id"])] for a record read under the given field names;
    [None] when the lookup or the conversion raises. *)
Definition row_id_of (fieldnames row : csv_row) : option Z :=
  match dictreader_get fieldnames row (u "row_id") with
  | Text s => int_of_str s
  | _ => None
  end.

(** The row ids a reader finds in a file, record by record. *)
Definition file_row_ids (file : csv_file) : list (option Z) :=
  match file with
  | [] => []
  | fieldnames :: rows => row_id_of fieldnames <$> List.filter nonblank rows
  end.



(** The rows of the frame that the loop does not skip, with their index. *)
Fixpoint pending (done_ids : gset Z) (i : nat) (rows : list (list cell))
  : list (nat * list cell) :=
  match rows with
  | [] => []
  | row :: rest =>
    (if decide (Z.of_nat i ∈ done_ids) then [] else [(i, row)])
    ++ pending done_ids (S i) rest
  end.

(** The record the loop writes for row [ir.1] of the frame. *)
Definition committed_row (api : oracle) (cols : list pystr)
    (ir : nat * list cell) : csv_row :=
  render (fst (process_row api cols ir.1 ir.2)).

(** The records written during a run, and the calls made. *)
Definition written (l : list event) : list csv_row :=
  omap (fun e => match e with WriteRow r => Some r | _ => None end) l.

Definition is_api_call (e : event) : bool :=
  match e with ApiCall _ _ => true | _ => false end.

Definition api_calls (l : list event) : nat :=
  length (List.filter is_api_call l).

(** An output file left by earlier runs over a frame of [n] rows: absent,
    or empty, or under the header this program writes with one well-formed
    record for each of some distinct rows of the frame. *)
Definition checkpoint (n : nat) (existing : option csv_file) : Prop :=
  match existing with
  | None | Some [] => True
  | Some (fieldnames :: rows) =>
    fieldnames = OUT_FIELDS /\
    exists ids : list nat,
      row_id_of fieldnames <$> List.filter nonblank rows
      = (fun i => Some (Z.of_nat i)) <$> ids
      /\ NoDup ids /\ Forall (fun i => (i < n)%nat) ids
  end.


End Vocabulary.

(** ** Further vocabulary: the prefilter, the retries and the writes *)

(** ASCII letters in lower case, the other characters as they are. *)
Definition ascii_lower (w : pystr) : pystr :=
  map (fun c => if (65 <=? c) && (c <=? 90) then c + 32 else c) w.

(** The seconds slept, and the header and row writes in order. *)
Definition slept (l : list event) : N :=
  fold_right (fun e acc => match e with Sleep secs => secs + acc | _ => acc end)
    0 l.



Section Resumption.
Context `{Runtime}.


End Resumption.

(** ** Configuration and default paths *)

Module Config.

(** [os.environ], and a parsed [.env] file: names with their values. *)
Abbreviation environ := (gmap string (list N)).

(** [load_dotenv(..., override=False)]: the names of the file are added to
    the environment, a name that is already there keeps its value. *)
Definition load_dotenv (file env : gmap string (list N)) : gmap string (list N) :=
  env ∪ file.

(** [load_env_from_config()].  [config_env] is the parsed
    [<project_root>/config/.env] when that file exists, [found_env] the
    file [load_dotenv()] finds by itself, if any. *)
Definition load_env_from_config
    (config_env found_env : option (gmap string (list N)))
    (env : gmap string (list N)) : gmap string (list N) :=
  match config_env with
  | Some file => load_dotenv file env
  | None =>
    match found_env with
    | Some file => load_dotenv file env
    | None => env
    end
  end.

(** [os.getenv(name, default)] *)
Definition getenv (env : gmap string (list N)) (name : string)
    (default : pystr) : pystr :=
  match env !! name with
  | Some v => v
  | None => default
  end.

(** The three module constants, read once the environment is loaded. *)
Record settings := {
  DEFAULT_MODEL : pystr;
  API_KEY : pystr;
  API_BASE : pystr
}.

Definition module_settings
    (config_env found_env : option (gmap string (list N)))
    (env : gmap string (list N)) : settings :=
  let env' := load_env_from_config config_env found_env env in
  {| DEFAULT_MODEL := getenv env' "LLM_MODEL" (u "gpt-4o-mini");
     API_KEY := getenv env' "LLM_API_KEY" [];
     API_BASE := getenv env' "LLM_API_BASE" (u "https://api.openai.com/v1") |}.

(** [p.parents[k]] for a resolved path, given by its components with the
    anchor first; [None] is the [IndexError]. *)
Definition parents (p : path) (k : nat) : option path :=
  if decide (S k < length p)%nat then Some (take (length p - 1 - k) p)
  else None.

(** [default_io_paths()].  [here] is [Path(__file__).resolve()]; a path
    exists when the store has a file for it. *)
Definition default_io_paths (here : path) (fs : gmap (list string) csv_file)
  : option (path * path) :=
  project_root ← parents here 2;
  let base := project_root ++ [ "Data"; "Depression_Dataset" ]%string in
  let in_clean := base ++ [ "dataset_clean.csv" ]%string in
  let in_raw := base ++ [ "dataset.csv" ]%string in
  let input_path :=
    if bool_decide (is_Some (fs !! in_clean)) then in_clean else in_raw in
  let output_path := base ++ [ "elderly_llm_filtered.csv" ]%string in
  Some (input_path, output_path).

End Config.

(** Further example data. *)
Module Example2.

(** The module as it is laid out in the repository. *)
Definition here : path :=
  [ "/"; "repo"; "src"; "data_processing"; "semantic_filter_elderly.py" ]%string.

(** A reply whose confidence is not a number. *)
Definition vague_reply : gmap (list N) jval :=
  {[ u "label" := JStr (u "elderly"); u "confidence" := JStr (u "high") ]}.

Definition api_vague : oracle := fun _ _ _ => Some vague_reply.

(** The second attempt succeeds. *)
Definition api_second : oracle :=
  fun i attempt _ =>
    match attempt with
    | 1%nat => Some Example.elderly_reply
    | _ => None
    end.

(** The dict built from [Example.elderly_reply] for the third row of
    [Example.df]. *)
Definition nursing_out : out :=
  {| row_id := 2;
     label := JStr (u "elderly");
     confidence := 92 # 100;
     reason := JStr (u "mentions a grandmother");
     title := u "nursing home visit";
     content := u "nan" |}.



(** A row without title and content. *)
Definition blank_row : list cell := [ CInt 104; CNaN; CNaN ].

End Example2.

(** * Properties *)

(** ** Strings *)

Lemma startswith_singleton (c : N) (t : pystr) :
  startswith [c] t = true <-> head t = Some c.
Proof.
  destruct t as [|b t']; simpl.
  - split; discriminate.
  - rewrite andb_true_r, N.eqb_eq. split; congruence.
Qed.

Lemma contains_singleton (c : N) (t : pystr) :
  contains [c] t = true <-> In c t.
Proof.
  induction t as [|b t' IH].
  - simpl. split; [discriminate | tauto].
  - change (contains [c] (b :: t'))
      with (startswith [c] (b :: t') || contains [c] t').
    rewrite orb_true_iff, startswith_singleton, IH. simpl.
    split; (intros [E | E]; [left; congruence | right; exact E]).
Qed.

Lemma isspace_true_range (c : N) :
  isspace c = true -> c <= 32 \/ 133 <= c.
Proof.
  unfold isspace.
  rewrite !orb_true_iff, !andb_true_iff, !N.leb_le, !N.eqb_eq. lia.
Qed.

Lemma printable_not_space (c : N) : printable c -> isspace c = false.
Proof.
  intros Hc. destruct (isspace c) eqn:E; [|reflexivity].
  apply isspace_true_range in E. unfold printable in Hc. lia.
Qed.

Lemma lstrip_printable (s : pystr) : Forall printable s -> lstrip s = s.
Proof.
  intros Hs. destruct Hs as [|c r Hc _]; [reflexivity|].
  simpl. now rewrite (printable_not_space c Hc).
Qed.

Lemma strip_printable (s : pystr) : Forall printable s -> strip s = s.
Proof.
  intros Hs. unfold strip, rstrip.
  rewrite (lstrip_printable s Hs), lstrip_printable, rev_involutive; [reflexivity|].
  apply Forall_rev, Hs.
Qed.

(** ** Integers: printing then parsing gives the number back *)

Section IntRoundTrip.
Context `{Runtime}.

Lemma digit_val_digit (d : N) : d < 10 -> digit_val (48 + d) = Some d.
Proof.
  intros Hd. unfold digit_val.
  replace ((48 <=? 48 + d) && (48 + d <=? 57)) with true.
  - f_equal. lia.
  - symmetry. rewrite andb_true_iff, !N.leb_le. lia.
Qed.

Lemma parse_digits_digit (a d : N) (prev : bool) (rest : pystr) :
  d < 10 ->
  parse_digits a prev ((48 + d) :: rest) = parse_digits (10 * a + d) true rest.
Proof.
  intros Hd. simpl.
  replace (48 + d =? 95) with false by (symmetry; apply N.eqb_neq; lia).
  now rewrite digit_val_digit.
Qed.

Lemma single_digit (d : N) : d < 10 -> Forall is_digit [48 + d].
Proof. intros Hd. constructor; [unfold is_digit; lia | constructor]. Qed.

Lemma parse_one_digit (n a : N) (prev : bool) (rest : pystr) :
  n < 10 ->
  parse_digits a prev ([48 + n] ++ rest)
  = parse_digits (a * 10 ^ N.of_nat (length [48 + n]) + n) true rest.
Proof.
  intros Hn. simpl app. rewrite parse_digits_digit by assumption.
  f_equal. simpl length. change (N.of_nat 1) with 1. rewrite N.pow_1_r. lia.
Qed.

(** The digits produced for [n], and how the parser reads them. *)
Lemma digits_fuel_parse (f : nat) : forall (n : N) (acc : pystr),
  n < 2 ^ N.of_nat (S f) ->
  exists ds, digits_fuel (S f) n acc = ds ++ acc /\ ds <> [] /\
    Forall is_digit ds /\
    forall a prev rest,
      parse_digits a prev (ds ++ rest)
      = parse_digits (a * 10 ^ N.of_nat (length ds) + n) true rest.
Proof.
  induction f as [|f IH]; intros n acc Hn.
  - assert (Hlt : n < 10) by (simpl in Hn; lia).
    exists [48 + n].
    change (digits_fuel 1 n acc)
      with (if n <? 10 then (48 + n mod 10) :: acc else (48 + n mod 10) :: acc).
    rewrite N.mod_small by assumption. destruct (n <? 10).
    all: repeat split;
      [discriminate | now apply single_digit |].
    all: intros a prev rest; now apply parse_one_digit.
  - change (digits_fuel (S (S f)) n acc)
      with (if n <? 10 then (48 + n mod 10) :: acc
            else digits_fuel (S f) (n / 10) ((48 + n mod 10) :: acc)).
    destruct (N.ltb_spec n 10) as [Hlt | Hge].
    + exists [48 + n]. rewrite N.mod_small by assumption.
      repeat split;
        [discriminate | now apply single_digit |].
      intros a prev rest; now apply parse_one_digit.
    + assert (Hdiv : n / 10 < 2 ^ N.of_nat (S f)).
      { apply N.Div0.div_lt_upper_bound.
        replace (N.of_nat (S (S f))) with (N.succ (N.of_nat (S f))) in Hn by lia.
        rewrite N.pow_succ_r' in Hn. lia. }
      destruct (IH (n / 10) ((48 + n mod 10) :: acc) Hdiv)
        as (ds & Hds & Hne & Hdig & Hparse).
      assert (Hm : n mod 10 < 10) by (apply N.mod_lt; lia).
      exists (ds ++ [48 + n mod 10]). rewrite Hds, <- app_assoc.
      repeat split.
      * destruct ds; discriminate.
      * apply Forall_app. split; [assumption|].
        now apply single_digit.
      * intros a prev rest. rewrite <- app_assoc. simpl app.
        rewrite Hparse, parse_digits_digit by assumption. f_equal.
        rewrite length_app. simpl length.
        replace (N.of_nat (length ds + 1)) with (N.succ (N.of_nat (length ds))) by lia.
        rewrite N.pow_succ_r'.
        pose proof (N.div_mod n 10 ltac:(lia)). lia.
Qed.

Lemma str_of_N_parse (n : N) :
  exists ds, str_of_N n = ds /\ ds <> [] /\ Forall is_digit ds /\
    parse_digits 0 false ds = Some n.
Proof.
  assert (Hn : n < 2 ^ N.of_nat (S (N.to_nat (N.log2 n)))).
  { replace (N.of_nat (S (N.to_nat (N.log2 n)))) with (N.succ (N.log2 n)) by lia.
    destruct n as [|p]; [reflexivity|]. apply N.log2_spec. lia. }
  destruct (digits_fuel_parse _ n [] Hn) as (ds & Hds & Hne & Hdig & Hparse).
  rewrite app_nil_r in Hds. exists ds. repeat split; try assumption.
  specialize (Hparse 0 false []). rewrite app_nil_r in Hparse.
  rewrite Hparse. simpl. reflexivity.
Qed.

Lemma is_digit_printable (c : N) : is_digit c -> printable c.
Proof. unfold is_digit, printable. lia. Qed.

Lemma int_of_str_of_N (n : N) : int_of_str (str_of_N n) = Some (Z.of_N n).
Proof.
  destruct (str_of_N_parse n) as (ds & -> & Hne & Hdig & Hparse).
  unfold int_of_str. rewrite strip_printable
    by (eapply Forall_impl; [exact Hdig | apply is_digit_printable]).
  destruct ds as [|c r]; [congruence|].
  assert (Hc : is_digit c) by (now inversion Hdig).
  unfold is_digit in Hc.
  replace (c =? 43) with false by (symmetry; apply N.eqb_neq; lia).
  replace (c =? 45) with false by (symmetry; apply N.eqb_neq; lia).
  now rewrite Hparse.
Qed.

Lemma int_of_str_of_int (z : Z) : int_of_str (str_of_int z) = Some z.
Proof.
  destruct z as [|p|p]; simpl str_of_int.
  - apply (int_of_str_of_N 0).
  - apply (int_of_str_of_N (Npos p)).
  - destruct (str_of_N_parse (Npos p)) as (ds & -> & Hne & Hdig & Hparse).
    unfold int_of_str. rewrite strip_printable.
    + simpl. now rewrite Hparse.
    + constructor; [unfold printable; lia|].
      eapply Forall_impl; [exact Hdig | apply is_digit_printable].
Qed.

End IntRoundTrip.

(** ** The matcher finds exactly the matches *)

Lemma nullable_spec (r : regex) : nullable r = true <-> Matches r [].
Proof.
  split.
  - induction r; simpl; intros Hn; try discriminate.
    + constructor.
    + apply andb_true_iff in Hn as [H1 H2].
      change (@nil N) with (@nil N ++ []). constructor; auto.
    + apply orb_true_iff in Hn as [H1 | H2];
        [apply MAltL | apply MAltR]; auto.
    + constructor.
  - intros Hm. remember (@nil N) as t eqn:Et.
    induction Hm; simpl; try discriminate; try reflexivity.
    + apply app_eq_nil in Et as [-> ->].
      now rewrite IHHm1, IHHm2.
    + now rewrite IHHm.
    + rewrite IHHm by assumption. apply orb_true_r.
Qed.

Lemma star_cons (r : regex) (a : N) (s : pystr) :
  Matches (Star r) (a :: s) ->
  exists s1 s2, s = s1 ++ s2 /\ Matches r (a :: s1) /\ Matches (Star r) s2.
Proof.
  intros Hm. remember (Star r) as r' eqn:Er. remember (a :: s) as t eqn:Et.
  revert s Et.
  induction Hm; intros rest Et; try discriminate.
  injection Er as ->. destruct s1 as [|b s1'].
  - simpl in Et. now apply IHHm2.
  - simpl in Et. injection Et as -> <-. exists s1', s2. auto.
Qed.

Lemma matches_void_inv (s : pystr) : Matches Void s -> False.
Proof. inversion 1. Qed.

Lemma matches_eps_inv (s : pystr) : Matches Eps s -> s = [].
Proof. inversion 1; reflexivity. Qed.

Lemma matches_chr_inv (c : N) (s : pystr) : Matches (Chr c) s -> s = [c].
Proof. inversion 1; reflexivity. Qed.

Lemma matches_rng_inv (lo hi : N) (s : pystr) :
  Matches (Rng lo hi) s -> exists c, s = [c] /\ lo <= c /\ c <= hi.
Proof. inversion 1; subst; eauto. Qed.

Lemma matches_seq_inv (r1 r2 : regex) (s : pystr) :
  Matches (Seq r1 r2) s ->
  exists s1 s2, s = s1 ++ s2 /\ Matches r1 s1 /\ Matches r2 s2.
Proof. inversion 1; subst; eauto. Qed.

Lemma matches_alt_inv (r1 r2 : regex) (s : pystr) :
  Matches (Alt r1 r2) s -> Matches r1 s \/ Matches r2 s.
Proof. inversion 1; subst; auto. Qed.

Lemma deriv_spec (r : regex) : forall (a : N) (s : pystr),
  Matches (deriv a r) s <-> Matches r (a :: s).
Proof.
  induction r as [| |c|lo hi|r1 IH1 r2 IH2|r1 IH1 r2 IH2|r IH]; intros a s; simpl.
  - split; intros Hm; now apply matches_void_inv in Hm.
  - split; intros Hm;
      [now apply matches_void_inv in Hm | now apply matches_eps_inv in Hm].
  - destruct (N.eqb_spec a c) as [->|Hne]; split; intros Hm.
    + apply matches_eps_inv in Hm as ->. constructor.
    + apply matches_chr_inv in Hm. injection Hm as ->. constructor.
    + now apply matches_void_inv in Hm.
    + apply matches_chr_inv in Hm. congruence.
  - destruct (N.leb_spec lo a) as [Hlo|Hlo];
    destruct (N.leb_spec a hi) as [Hhi|Hhi]; simpl; split; intros Hm.
    1: apply matches_eps_inv in Hm as ->; now constructor.
    1: apply matches_rng_inv in Hm as (c & [= -> ->] & _); constructor.
    all: try (now apply matches_void_inv in Hm).
    all: apply matches_rng_inv in Hm as (c & [= -> ->] & ? & ?); lia.
  - assert (Hfwd : forall s, Matches (Seq (deriv a r1) r2) s ->
                             Matches (Seq r1 r2) (a :: s)).
    { intros t Hm. apply matches_seq_inv in Hm as (s1 & s2 & -> & H1 & H2).
      apply IH1 in H1.
      change (a :: s1 ++ s2) with ((a :: s1) ++ s2). now constructor. }
    destruct (nullable r1) eqn:En; split; intros Hm.
    + apply matches_alt_inv in Hm as [Hm | Hm]; [now apply Hfwd|].
      apply IH2 in Hm. apply nullable_spec in En.
      change (a :: s) with ([] ++ a :: s). now constructor.
    + apply matches_seq_inv in Hm as (s1 & s2 & E & H1 & H2).
      destruct s1 as [|b s1']; simpl in E.
      * subst s2. apply MAltR. now apply IH2.
      * injection E as <- ->. apply MAltL.
        constructor; [now apply IH1 | assumption].
    + now apply Hfwd.
    + apply matches_seq_inv in Hm as (s1 & s2 & E & H1 & H2).
      destruct s1 as [|b s1']; simpl in E.
      * apply nullable_spec in H1. congruence.
      * injection E as <- ->. constructor; [now apply IH1 | assumption].
  - split; intros Hm; apply matches_alt_inv in Hm as [Hm | Hm];
      solve [apply MAltL; now apply IH1 | apply MAltR; now apply IH2].
  - split; intros Hm.
    + apply matches_seq_inv in Hm as (s1 & s2 & -> & H1 & H2).
      apply IH in H1.
      change (a :: s1 ++ s2) with ((a :: s1) ++ s2). now constructor.
    + apply star_cons in Hm as (s1 & s2 & -> & H1 & H2).
      constructor; [now apply IH | assumption].
Qed.

Lemma match_prefix_spec (s : pystr) : forall r : regex,
  match_prefix r s = true <-> exists p q, s = p ++ q /\ Matches r p.
Proof.
  induction s as [|a s IH]; intros r.
  - simpl. rewrite orb_false_r, nullable_spec. split.
    + intros Hm. exists [], []. auto.
    + intros (p & q & E & Hm). symmetry in E.
      apply app_eq_nil in E as [-> _]. exact Hm.
  - change (match_prefix r (a :: s))
      with (nullable r || match_prefix (deriv a r) s).
    rewrite orb_true_iff, nullable_spec, IH. split.
    + intros [Hm | (p & q & -> & Hm)].
      * exists [], (a :: s). auto.
      * exists (a :: p), q. split; [reflexivity|]. now apply deriv_spec.
    + intros (p & q & E & Hm). destruct p as [|b p]; [left; exact Hm|].
      simpl in E. injection E as <- ->. right. exists p, q.
      split; [reflexivity|]. now apply deriv_spec.
Qed.

(** [search] succeeds exactly when some block of the text is in the
    language of the pattern. *)
Lemma search_spec (r : regex) (s : pystr) :
  search r s = true
  <-> exists before mid after, s = before ++ mid ++ after /\ Matches r mid.
Proof.
  induction s as [|a s IH].
  - change (search r []) with (match_prefix r [] || false).
    rewrite orb_false_r, match_prefix_spec. split.
    + intros (p & q & E & Hm). exists [], p, q. auto.
    + intros (b & m & q & E & Hm). symmetry in E.
      apply app_eq_nil in E as [-> E]. apply app_eq_nil in E as [-> ->].
      exists [], []. auto.
  - change (search r (a :: s)) with (match_prefix r (a :: s) || search r s).
    rewrite orb_true_iff, match_prefix_spec, IH. split.
    + intros [(p & q & E & Hm) | (b & m & q & -> & Hm)].
      * exists [], p, q. auto.
      * exists (a :: b), m, q. auto.
    + intros (b & m & q & E & Hm). destruct b as [|c b].
      * left. exists m, q. auto.
      * simpl in E. injection E as <- ->. right. exists b, m, q. auto.
Qed.

(** A pattern that starts with a literal character only matches blocks that
    start with it. *)
Lemma matches_seq_chr (c : N) (r : regex) (s : pystr) :
  Matches (Seq (Chr c) r) s -> exists s', s = c :: s' /\ Matches r s'.
Proof.
  intros Hm. apply matches_seq_inv in Hm as (s1 & s2 & -> & H1 & H2).
  apply matches_chr_inv in H1 as ->. simpl. eauto.
Qed.

Lemma matches_seq_rng (lo hi : N) (r : regex) (s : pystr) :
  Matches (Seq (Rng lo hi) r) s -> exists d s', s = d :: s' /\ Matches r s'.
Proof.
  intros Hm. apply matches_seq_inv in Hm as (s1 & s2 & -> & H1 & H2).
  apply matches_rng_inv in H1 as (d & -> & _). simpl. eauto.
Qed.

(** Neither age pattern can match a text without a backslash in it. *)
Lemma age_en_needs_backslash (s : pystr) :
  search AGE_RE_EN s = true -> In backslash s.
Proof.
  intros Hs. apply search_spec in Hs as (b & m & q & -> & Hm).
  apply matches_seq_chr in Hm as (m' & -> & _).
  apply in_or_app. right. left. reflexivity.
Qed.

Lemma age_cn_needs_backslash (s : pystr) :
  search AGE_RE_CN s = true -> In backslash s.
Proof.
  intros Hs. apply search_spec in Hs as (b & m & q & -> & Hm).
  apply matches_seq_rng in Hm as (d & m' & -> & Hm).
  apply matches_seq_chr in Hm as (m'' & -> & _).
  apply in_or_app. right. right. left. reflexivity.
Qed.

(** ** The prefilter *)

Lemma startswith_app (k post : pystr) : startswith k (k ++ post) = true.
Proof.
  induction k as [|a k IH]; [reflexivity|].
  simpl. now rewrite N.eqb_refl, IH.
Qed.

Lemma contains_infix (k pre post : pystr) :
  contains k (pre ++ k ++ post) = true.
Proof.
  induction pre as [|a pre IH].
  - destruct (k ++ post) eqn:E; simpl; rewrite <- E, startswith_app;
      reflexivity.
  - change (contains k ((a :: pre) ++ k ++ post))
      with (startswith k (a :: pre ++ k ++ post) || contains k (pre ++ k ++ post)).
    rewrite IH. apply orb_true_r.
Qed.

Section PrefilterFacts.
Context `{Runtime}.

Lemma maybe_elderly_cn_hint (k text : pystr) :
  In k CN_HINTS -> contains k text = true -> maybe_elderly text = true.
Proof.
  intros Hk Hc. unfold maybe_elderly.
  destruct (existsb _ EN_HINTS); [reflexivity|].
  replace (existsb (fun k0 => contains k0 text) CN_HINTS) with true;
    [reflexivity|].
  symmetry. apply existsb_exists. exists k. split; assumption.
Qed.

Lemma sui_is_hint : In (u "岁") CN_HINTS.
Proof. unfold CN_HINTS. apply in_map. do 21 right. left. reflexivity. Qed.

(** C10. A text with the character 岁 anywhere in it passes the prefilter,
    whatever stands around it: the character is a keyword of [CN_HINTS] by
    itself, so neither a number nor an age of 60 to 99 is needed. *)
Theorem maybe_elderly_sui_anywhere (before after : pystr) :
  maybe_elderly (before ++ u "岁" ++ after) = true.
Proof.
  apply (maybe_elderly_cn_hint (u "岁")).
  - apply sui_is_hint.
  - apply contains_infix.
Qed.

(** C4, at the failing input.  The text "82-year-old" is rejected: it holds
    none of the keywords, and the age pattern, compiled from a raw string
    with doubled backslashes, only matches texts with literal backslashes. *)
Theorem maybe_elderly_82_year_old :
  maybe_elderly (u "82-year-old") = false.
Proof. vm_compute. reflexivity. Qed.

(** The same happens for every age from 60 to 99 that is not spelled out
    among the keywords (65 and 70 are). *)
Lemma maybe_elderly_NN_year_old :
  forallb (fun n => negb (maybe_elderly (str_of_N n ++ u "-year-old")))
    (List.filter (fun n => negb ((n =? 65) || (n =? 70)))
       (map N.of_nat (seq 60 40))) = true.
Proof. vm_compute. reflexivity. Qed.

(** When the prefilter says yes, a keyword was found or the text has a
    backslash in it: on ordinary text the two age patterns never fire. *)
Lemma maybe_elderly_true_inv (text : pystr) :
  maybe_elderly text = true ->
  (exists k, In k EN_HINTS /\ contains k (lower text) = true)
  \/ (exists k, In k CN_HINTS /\ contains k text = true)
  \/ In backslash (lower text) \/ In backslash text.
Proof.
  unfold maybe_elderly.
  destruct (existsb _ EN_HINTS) eqn:Een.
  { intros _. left. apply existsb_exists in Een. exact Een. }
  destruct (existsb _ CN_HINTS) eqn:Ecn.
  { intros _. right. left. apply existsb_exists in Ecn. exact Ecn. }
  destruct (search AGE_RE_EN (lower text)) eqn:Ere.
  { intros _. right. right. left. now apply age_en_needs_backslash. }
  destruct (search AGE_RE_CN text) eqn:Erc; [|discriminate].
  intros _. right. right. right. now apply age_cn_needs_backslash.
Qed.

(** The pattern does match once the backslashes are in the text. *)
Lemma age_pattern_needs_backslashes :
  search AGE_RE_EN (u "\b8\d\year-old\b") = true
  /\ search AGE_RE_EN (u "82-year-old") = false.
Proof. split; vm_compute; reflexivity. Qed.

End PrefilterFacts.

(** ** The checkpoint scan *)

Section CheckpointFacts.
Context `{Runtime}.

Lemma scan_row_spec (fieldnames row : csv_row) (acc : gset Z) (z : Z) :
  z ∈ scan_row fieldnames acc row
  <-> z ∈ acc \/ (row <> [] /\ row_id_of fieldnames row = Some z).
Proof.
  unfold scan_row, row_id_of. destruct row as [|c r].
  - split; [auto | intros [?|[? _]]; [assumption | congruence]].
  - destruct (dictreader_get fieldnames (c :: r) (u "row_id")) as [| |s].
    1,2: split; [auto | intros [?|[_ ?]]; [assumption | congruence]].
    destruct (int_of_str s) as [z'|].
    + rewrite elem_of_union, elem_of_singleton. split.
      * intros [? | ->]; [left; assumption | right; split; [discriminate | reflexivity]].
      * intros [?|[_ E]]; [left; assumption | right; congruence].
    + split; [auto | intros [?|[_ ?]]; [assumption | congruence]].
Qed.

Lemma foldl_scan_row_spec (fieldnames : csv_row) (rows : list csv_row) :
  forall (acc : gset Z) (z : Z),
  z ∈ foldl (scan_row fieldnames) acc rows
  <-> z ∈ acc \/ exists row, In row rows /\ row <> []
                             /\ row_id_of fieldnames row = Some z.
Proof.
  induction rows as [|row rows IH]; intros acc z; simpl.
  - split; [auto | intros [?|(? & [] & _)]; assumption].
  - rewrite IH, scan_row_spec. split.
    + intros [[?|[? ?]]|(r & ? & ? & ?)].
      * left; assumption.
      * right. exists row. auto.
      * right. exists r. auto.
    + intros [?|(r & [<-|?] & ? & ?)].
      * left; left; assumption.
      * left; right; auto.
      * right. exists r. auto.
Qed.


End CheckpointFacts.


(** ** One row *)

Section RowFacts.
Context `{Runtime}.


Lemma reply_out_row_id (i : nat) (t c : pystr) (parsed : gmap (list N) jval)
    (o : out) :
  reply_out i t c parsed = Some o -> row_id o = i.
Proof.
  unfold reply_out. destruct (to_float _); simpl; [|discriminate].
  intros [= <-]. reflexivity.
Qed.

Lemma attempts_row_id (call : nat -> option out) (i : nat) (todo : list nat)
    (o : out) :
  (forall a o', call a = Some o' -> row_id o' = i) ->
  fst (attempts call i todo) = Some o -> row_id o = i.
Proof.
  intros Hcall. induction todo as [|a rest IH]; simpl; [discriminate|].
  destruct (call a) as [o'|] eqn:E; simpl.
  - intros [= <-]. eapply Hcall, E.
  - destruct (attempts call i rest) as [r ev]. simpl in *. exact IH.
Qed.

(** The dict written for a row carries the index the loop is at. *)
Lemma process_row_row_id (api : oracle) (cols : list pystr) (i : nat)
    (row : list cell) :
  row_id (fst (process_row api cols i row)) = i.
Proof.
  unfold process_row. destruct (negb _); [reflexivity|].
  destruct (attempts _ i (seq 0 5)) as [r ev] eqn:E. simpl.
  destruct r as [o|]; [|reflexivity]. simpl.
  eapply attempts_row_id; [|rewrite E; reflexivity].
  intros a o'. unfold try_body.
  destruct (api i a _) as [parsed|]; simpl; [|discriminate].
  apply reply_out_row_id.
Qed.

(** C3, as amended.  A row whose text the prefilter rejects gets the label
    [not_elderly], the confidence 0.3 and the reason
    "keyword prefilter negative", and no call is made for it. *)
Theorem prefilter_negative_row (api : oracle) (cols : list pystr) (i : nat)
    (row : list cell) :
  maybe_elderly (row_text cols row) = false ->
  process_row api cols i row
  = ({| row_id := i;
        label := JStr (u "not_elderly");
        confidence := float_of_Q (3 # 10);
        reason := JStr (u "keyword prefilter negative");
        title := field cols row (u "title");
        content := field cols row (u "content") |},
     [Prefilter i])
  /\ api_calls (snd (process_row api cols i row)) = 0%nat.
Proof.
  intros Hneg. unfold process_row. rewrite Hneg. simpl. split; reflexivity.
Qed.

End RowFacts.

(** C3, as stated, fails: for the row "car trouble" / "my car broke down"
    the prefilter says no and the reason written is not
    "heuristic negative". *)
Lemma prefilter_negative_reason_not_heuristic :
  maybe_elderly (row_text Example.car_cols Example.car_row) = false
  /\ reason (fst (process_row Example.api_down Example.car_cols 8
                    Example.car_row))
     <> JStr (u "heuristic negative").
Proof.
  split; vm_compute; [reflexivity | discriminate].
Qed.

Lemma prefilter_negative_row_witness :
  maybe_elderly (row_text Example.car_cols Example.car_row) = false
  /\ process_row Example.api_down Example.car_cols 8 Example.car_row
     = ({| row_id := 8;
           label := JStr (u "not_elderly");
           confidence := float_of_Q (3 # 10);
           reason := JStr (u "keyword prefilter negative");
           title := field Example.car_cols Example.car_row (u "title");
           content := field Example.car_cols Example.car_row (u "content") |},
        [Prefilter 8])
  /\ api_calls (snd (process_row Example.api_down Example.car_cols 8
                       Example.car_row)) = 0%nat.
Proof.
  split; [vm_compute; reflexivity|].
  apply (prefilter_negative_row Example.api_down Example.car_cols 8
           Example.car_row).
  vm_compute. reflexivity.
Defined.

(** ** The row loop *)

Section LoopFacts.
Context `{Runtime}.

Lemma written_app (l1 l2 : list event) :
  written (l1 ++ l2) = written l1 ++ written l2.
Proof. unfold written. apply omap_app. Qed.

Lemma attempts_no_writes (call : nat -> option out) (i : nat) (todo : list nat) :
  written (snd (attempts call i todo)) = [].
Proof.
  induction todo as [|a rest IH]; simpl; [reflexivity|].
  destruct (call a); [reflexivity|].
  destruct (attempts call i rest) as [r ev]. exact IH.
Qed.

Lemma process_row_no_writes (api : oracle) (cols : list pystr) (i : nat)
    (row : list cell) :
  written (snd (process_row api cols i row)) = [].
Proof.
  unfold process_row. destruct (negb _); [reflexivity|].
  pose proof (attempts_no_writes
                (try_body api i (field cols row (u "title"))
                   (field cols row (u "content")) (row_text cols row))
                i (seq 0 5)) as Hw.
  destruct (attempts _ i (seq 0 5)) as [r ev]. exact Hw.
Qed.

Variables (api : oracle) (cols : list pystr) (done_ids : gset Z)
          (was_empty : bool).

(** What the loop leaves: the records of the pending rows after what was
    there, behind a header if the file was empty and there is a row to
    write; nothing at all happens when no row is pending. *)
Lemma row_loop_spec (rows : list (list cell)) : forall (i : nat) (st : writing),
  let ps := pending done_ids i rows in
  let st' := row_loop api cols done_ids was_empty i rows st in
  w_file st'
  = w_file st
    ++ (if negb (w_writer st) && was_empty && negb (bool_decide (ps = []))
        then [OUT_FIELDS] else [])
    ++ (committed_row api cols <$> ps)
  /\ written (w_log st')
     = written (w_log st) ++ (committed_row api cols <$> ps)
  /\ (ps = [] -> st' = st).
Proof.
  induction rows as [|row rest IH]; intros i st; simpl.
  - rewrite andb_false_r. simpl. rewrite !app_nil_r. auto.
  - destruct (decide (Z.of_nat i ∈ done_ids)) as [Hin|Hout]; simpl.
    + apply IH.
    + destruct (process_row api cols i row) as [o ev] eqn:E.
      set (st1 := write_row was_empty _ o).
      destruct (IH (S i) st1) as (Hf & Hl & _).
      rewrite Hf, Hl. unfold st1, write_row, committed_row. simpl.
      rewrite E. simpl. rewrite andb_true_r.
      repeat split.
      * rewrite <- !app_assoc. reflexivity.
      * rewrite !written_app.
        pose proof (process_row_no_writes api cols i row) as Hw.
        rewrite E in Hw. simpl in Hw. rewrite Hw.
        destruct (negb (w_writer st) && was_empty);
          simpl; rewrite <- !app_assoc; reflexivity.
      * discriminate.
Qed.

Lemma pending_indices (rows : list (list cell)) : forall i : nat,
  fst <$> pending done_ids i rows
  = filter (fun k => Z.of_nat k ∉ done_ids) (seq i (length rows)).
Proof.
  induction rows as [|row rest IH]; intros i; simpl; [reflexivity|].
  rewrite fmap_app, IH, filter_cons.
  destruct (decide (Z.of_nat i ∈ done_ids)) as [Hin|Hout].
  - rewrite decide_False by tauto. reflexivity.
  - rewrite decide_True by assumption. reflexivity.
Qed.


(** A record written by the loop reads back with the index of its row. *)
Lemma row_id_of_committed (ir : nat * list cell) :
  row_id_of OUT_FIELDS (committed_row api cols ir) = Some (Z.of_nat ir.1).
Proof.
  unfold row_id_of, committed_row, render, dictreader_get.
  change (last_index (u "row_id") OUT_FIELDS) with (Some 0%nat). simpl.
  rewrite process_row_row_id. apply int_of_str_of_int.
Qed.

Lemma nonblank_committed (ir : nat * list cell) :
  nonblank (committed_row api cols ir) = true.
Proof. reflexivity. Qed.

End LoopFacts.

(** ** The output file after the loop *)

Section FileFacts.
Context `{Runtime}.

Lemma nonblank_true (r : csv_row) : nonblank r = true <-> r <> [].
Proof. destruct r; simpl; split; congruence. Qed.

Lemma file_row_ids_cons (h : csv_row) (rows : list csv_row) :
  file_row_ids (h :: rows) = row_id_of h <$> List.filter nonblank rows.
Proof. reflexivity. Qed.

(** The scan finds what a reader of the file finds. *)
Lemma load_done_ids_file_row_ids (file : csv_file) (z : Z) :
  z ∈ load_done_ids (Some file) <-> Some z ∈ file_row_ids file.
Proof.
  destruct file as [|h rows]; simpl.
  - rewrite elem_of_nil. split; [apply not_elem_of_empty | tauto].
  - rewrite foldl_scan_row_spec, list_elem_of_fmap. split.
    + intros [E|(row & Hin & Hne & Hid)]; [now apply not_elem_of_empty in E|].
      exists row. split; [congruence|].
      apply list_elem_of_In, filter_In. split; [assumption|].
      now apply nonblank_true.
    + intros (row & Hid & Hin). right. exists row.
      apply list_elem_of_In, filter_In in Hin as [Hin Hnb].
      apply nonblank_true in Hnb. auto.
Qed.

Lemma filter_nonblank_committed (api : oracle) (cols : list pystr)
    (ps : list (nat * list cell)) :
  List.filter nonblank (committed_row api cols <$> ps)
  = committed_row api cols <$> ps.
Proof.
  induction ps as [|p ps IH]; [reflexivity|].
  rewrite fmap_cons. cbn [List.filter].
  now rewrite nonblank_committed, IH.
Qed.

Lemma row_ids_committed (api : oracle) (cols : list pystr)
    (ps : list (nat * list cell)) :
  row_id_of OUT_FIELDS <$> (committed_row api cols <$> ps)
  = (fun i => Some (Z.of_nat i)) <$> (fst <$> ps).
Proof.
  induction ps as [|p ps IH]; [reflexivity|].
  now rewrite !fmap_cons, IH, row_id_of_committed.
Qed.

(** The file after the loop, the records written and the case where the
    loop has nothing to do. *)
Lemma append_phase_spec (api : oracle) (df : dataframe)
    (existing : option csv_file) :
  let file := default [] existing in
  let ps := pending (load_done_ids existing) 0 (records df) in
  let st := append_phase api df existing in
  w_file st
  = file
    ++ (if bool_decide (file = []) && negb (bool_decide (ps = []))
        then [OUT_FIELDS] else [])
    ++ (committed_row api (columns df) <$> ps)
  /\ written (w_log st) = committed_row api (columns df) <$> ps
  /\ (ps = [] -> w_file st = file /\ w_log st = []).
Proof.
  unfold append_phase.
  destruct (row_loop_spec api (columns df) (load_done_ids existing)
              (bool_decide (default [] existing = [])) (records df) 0
              {| w_file := default [] existing; w_writer := false;
                 w_log := [] |}) as (Hf & Hl & Hn).
  simpl in *. repeat split; try assumption.
  - now rewrite (Hn H0).
  - now rewrite (Hn H0).
Qed.

(** Rows already recorded and rows still pending make up the frame. *)
Lemma done_and_pending (done_ids : gset Z) (ids : list nat) (n : nat) :
  NoDup ids -> Forall (fun i => (i < n)%nat) ids ->
  (forall k, Z.of_nat k ∈ done_ids <-> k ∈ ids) ->
  ids ++ filter (fun k => Z.of_nat k ∉ done_ids) (seq 0 n) ≡ₚ seq 0 n.
Proof.
  intros Hnd Hlt Hdone. apply NoDup_Permutation.
  - apply NoDup_app. repeat split; [assumption | | ].
    + intros x Hx Hf. apply list_elem_of_filter in Hf as [Hf _].
      apply Hf, Hdone, Hx.
    + apply NoDup_filter, NoDup_seq.
  - apply NoDup_seq.
  - intros x. rewrite elem_of_app, list_elem_of_filter, elem_of_seq. split.
    + intros [Hx | [_ Hx]]; [|exact Hx].
      rewrite Forall_forall in Hlt. specialize (Hlt x Hx). lia.
    + intros Hx. destruct (decide (x ∈ ids)) as [Hin|Hout]; [left; assumption|].
      right. split; [|assumption]. intros Hd. apply Hout, Hdone, Hd.
Qed.

Lemma checkpoint_ids (n : nat) (existing : option csv_file) :
  checkpoint n existing ->
  (default [] existing = [] \/ exists rows, default [] existing = OUT_FIELDS :: rows)
  /\ exists ids : list nat,
       file_row_ids (default [] existing) = (fun i => Some (Z.of_nat i)) <$> ids
       /\ NoDup ids /\ Forall (fun i => (i < n)%nat) ids
       /\ forall k, Z.of_nat k ∈ load_done_ids existing <-> k ∈ ids.
Proof.
  assert (Hinj : forall (ids : list nat) (k : nat),
            Some (Z.of_nat k) ∈ (fun i => Some (Z.of_nat i)) <$> ids <-> k ∈ ids).
  { intros ids k. rewrite list_elem_of_fmap. split.
    - intros (i & E & Hi). injection E as E. apply Nat2Z.inj in E. now subst.
    - intros Hk. exists k. auto. }
  destruct existing as [[|h rows]|]; simpl.
  1,3: intros _; split; [left; reflexivity|]; exists []; simpl;
       repeat split; try constructor;
       try (intros E; now apply not_elem_of_empty in E);
       try (intros E; now apply elem_of_nil in E).
  intros (-> & ids & Hids & Hnd & Hlt). split; [right; eauto|].
  exists ids. repeat split; try assumption.
  - intros Hk.
    apply (load_done_ids_file_row_ids (OUT_FIELDS :: rows)) in Hk.
    simpl in Hk. rewrite Hids in Hk. now apply Hinj.
  - intros Hk.
    apply (load_done_ids_file_row_ids (OUT_FIELDS :: rows)).
    simpl. rewrite Hids. now apply Hinj.
Qed.

(** After the loop the file holds each row of the frame once, and it is
    again a checkpoint. *)
Lemma append_phase_row_ids (api : oracle) (df : dataframe)
    (existing : option csv_file) :
  checkpoint (length (records df)) existing ->
  let file1 := w_file (append_phase api df existing) in
  file_row_ids file1
  ≡ₚ (fun i => Some (Z.of_nat i)) <$> seq 0 (length (records df)).
Proof.
  intros Hcp file1.
  destruct (checkpoint_ids _ _ Hcp) as (Hhead & ids & Hids & Hnd & Hlt & Hdone).
  destruct (append_phase_spec api df existing) as (Hf & _ & _).
  fold file1 in Hf.
  pose proof (done_and_pending _ ids _ Hnd Hlt Hdone) as Hperm.
  rewrite <- pending_indices in Hperm.
  set (ps := pending (load_done_ids existing) 0 (records df)) in *.
  rewrite <- Hperm, fmap_app, <- Hids, <- (row_ids_committed api (columns df)).
  destruct Hhead as [He | (rows & He)]; rewrite He in Hf |- *.
  - rewrite bool_decide_true in Hf by reflexivity.
    destruct (decide (ps = [])) as [Eps|Eps].
    + rewrite Eps in Hf |- *. rewrite bool_decide_true in Hf by reflexivity.
      cbn in Hf. rewrite Hf. reflexivity.
    + rewrite bool_decide_false in Hf by assumption.
      cbn [andb negb app] in Hf.
      rewrite Hf, file_row_ids_cons, filter_nonblank_committed. reflexivity.
  - rewrite bool_decide_false in Hf by discriminate.
    cbn [andb app] in Hf.
    rewrite Hf, !file_row_ids_cons, List.filter_app, fmap_app,
      filter_nonblank_committed.
    reflexivity.
Qed.

(** Being a checkpoint is kept by the loop: what a run leaves is a
    checkpoint for the next one. *)
Lemma append_phase_checkpoint (api : oracle) (df : dataframe)
    (existing : option csv_file) :
  checkpoint (length (records df)) existing ->
  checkpoint (length (records df)) (Some (w_file (append_phase api df existing))).
Proof.
  intros Hcp.
  pose proof (append_phase_row_ids api df existing Hcp) as Hperm.
  destruct (append_phase_spec api df existing) as (Hf & _ & _).
  destruct (checkpoint_ids _ _ Hcp) as (Hhead & _).
  cbv zeta in Hperm.
  destruct (w_file (append_phase api df existing)) as [|h rows1] eqn:E;
    [exact I|].
  assert (Hh : h = OUT_FIELDS).
  { destruct Hhead as [He | (rows & He)]; rewrite He in Hf.
    - rewrite bool_decide_true in Hf by reflexivity.
      destruct (decide (pending (load_done_ids existing) 0 (records df) = []))
        as [Eps|Eps].
      + rewrite Eps in Hf. discriminate Hf.
      + rewrite bool_decide_false in Hf by assumption.
        cbn [andb negb app] in Hf. now injection Hf.
    - cbn [app] in Hf. now injection Hf. }
  split; [exact Hh|].
  rewrite file_row_ids_cons in Hperm.
  apply Permutation_map_inv in Hperm as (ids & Hids & Hp).
  exists ids. split; [exact Hids|]. split.
  - rewrite <- Hp. apply NoDup_seq.
  - apply Forall_forall. intros i Hi. rewrite <- Hp in Hi.
    apply elem_of_seq in Hi. lia.
Qed.


End FileFacts.

(** ** The run as a whole *)

Section RunFacts.
Context `{Runtime}.

Lemma run_past_checks (API_KEY : pystr) (api : oracle) (df : dataframe)
    (output_path : path) (min_conf : float) (fs : gmap (list string) csv_file) :
  API_KEY <> [] -> u "title" ∈ columns df -> u "content" ∈ columns df ->
  let st := append_phase api df (fs !! output_path) in
  run API_KEY api df output_path min_conf fs
  = match export (w_file st) min_conf with
    | None =>
      {| status := Some ExportError;
         files := <[ output_path := w_file st ]> fs;
         log := w_log st |}
    | Some subset =>
      {| status := None;
         files := <[ subset_path output_path := subset ]>
                    (<[ output_path := w_file st ]> fs);
         log := w_log st |}
    end.
Proof.
  intros Hkey Ht Hc. unfold run.
  rewrite (bool_decide_false _ Hkey), (bool_decide_true _ Ht),
    (bool_decide_true _ Hc).
  reflexivity.
Qed.

(** The two fatal exits before the loop, and only they, leave everything as
    it was. *)
Lemma run_fatal_before_rows (API_KEY : pystr) (api : oracle) (df : dataframe)
    (output_path : path) (min_conf : float) (fs : gmap (list string) csv_file) :
  let o := run API_KEY api df output_path min_conf fs in
  (status o = Some ConfigurationError <-> API_KEY = [])
  /\ (status o = Some InputSchemaError
      <-> API_KEY <> [] /\ ~ (u "title" ∈ columns df /\ u "content" ∈ columns df))
  /\ (status o = Some ConfigurationError \/ status o = Some InputSchemaError ->
      files o = fs /\ log o = []).
Proof.
  unfold run.
  destruct (bool_decide_reflect (API_KEY = [])) as [Hk|Hk]; simpl.
  { intuition (discriminate || auto). }
  destruct (bool_decide_reflect (u "title" ∈ columns df)) as [Ht|Ht];
  destruct (bool_decide_reflect (u "content" ∈ columns df)) as [Hc|Hc]; simpl.
  2-4: intuition (discriminate || auto).
  destruct (export _ min_conf); simpl; intuition (discriminate || auto).
Qed.


(** *** The export *)




Lemma export_unfold (file : csv_file) (min_conf : float) :
  export file min_conf
  = match pd_read_csv file with
    | None => None
    | Some (h, rows) =>
      match first_index (u "label") h, first_index (u "confidence") h with
      | Some jl, Some jc =>
        match mapM (confident jl jc min_conf) rows with
        | Some mask => Some (h :: (fst <$> List.filter snd (zip rows mask)))
        | None => None
        end
      | _, _ => None
      end
    end.
Proof.
  unfold export.
  destruct (pd_read_csv file) as [[h rows]|]; [|reflexivity].
  cbn [mbind option_bind].
  destruct (first_index (u "label") h) as [jl|]; [|reflexivity].
  cbn [mbind option_bind].
  destruct (first_index (u "confidence") h) as [jc|]; [|reflexivity].
  cbn [mbind option_bind].
  destruct (mapM (confident jl jc min_conf) rows); reflexivity.
Qed.




End RunFacts.

(** *** A first run goes through *)

Section FirstRun.
Context `{Runtime}.

Lemma load_done_ids_fresh (existing : option csv_file) :
  default [] existing = [] -> load_done_ids existing = ∅.
Proof. destruct existing as [[|h rows]|]; simpl; congruence. Qed.

Lemma pending_fresh (rows : list (list cell)) (i : nat) :
  pending ∅ i rows <> [] <-> rows <> [].
Proof.
  destruct rows as [|row rest]; simpl; [tauto|].
  rewrite decide_False by apply not_elem_of_empty.
  split; discriminate.
Qed.

Lemma mapM_confident_committed (api : oracle) (cols : list pystr)
    (min_conf : float) (ps : list (nat * list cell)) :
  (forall x : float, is_Some (pd_numeric (float_repr x))) ->
  is_Some (mapM (confident 1 2 min_conf) (committed_row api cols <$> ps)).
Proof.
  intros Hnum. apply mapM_is_Some, Forall_forall. intros r Hr.
  apply list_elem_of_fmap in Hr as (p & -> & _).
  unfold compose, confident, committed_row, render, cell_at. simpl.
  destruct (Hnum (confidence (fst (process_row api cols p.1 p.2)))) as [c ->].
  simpl. eauto.
Qed.

Lemma forallb_committed_width (api : oracle) (cols : list pystr)
    (ps : list (nat * list cell)) :
  forallb (fun r => length r <=? length OUT_FIELDS)%nat
    (committed_row api cols <$> ps) = true.
Proof. induction ps as [|p ps IH]; [reflexivity|]. rewrite fmap_cons. exact IH. Qed.

(** Starting with no output file, or an empty one, a run over a frame with
    at least one row completes, provided pandas reads the text of a float
    as a number. *)
Lemma run_completes_fresh (API_KEY : pystr) (api : oracle) (df : dataframe)
    (output_path : path) (min_conf : float) (fs : gmap (list string) csv_file) :
  API_KEY <> [] -> u "title" ∈ columns df -> u "content" ∈ columns df ->
  default [] (fs !! output_path) = [] -> records df <> [] ->
  (forall x : float, is_Some (pd_numeric (float_repr x))) ->
  status (run API_KEY api df output_path min_conf fs) = None.
Proof.
  intros Hk Ht Hc Hfresh Hrows Hnum.
  rewrite run_past_checks by assumption.
  destruct (append_phase_spec api df (fs !! output_path)) as (Hf & _ & _).
  rewrite Hfresh, (load_done_ids_fresh _ Hfresh) in Hf.
  rewrite bool_decide_true in Hf by reflexivity.
  rewrite bool_decide_false in Hf by (now apply pending_fresh).
  cbn [andb negb app] in Hf. rewrite Hf, export_unfold.
  unfold pd_read_csv.
  assert (Hhd : forall l : csv_file,
            List.filter nonblank (OUT_FIELDS :: l)
            = OUT_FIELDS :: List.filter nonblank l) by reflexivity.
  rewrite Hhd, filter_nonblank_committed, forallb_committed_width.
  change (first_index (u "label") OUT_FIELDS) with (Some 1%nat).
  change (first_index (u "confidence") OUT_FIELDS) with (Some 2%nat).
  cbn iota.
  destruct (mapM_confident_committed api (columns df) min_conf
              (pending ∅ 0 (records df)) Hnum) as [mask ->].
  reflexivity.
Qed.

End FirstRun.

(** ** Retries *)

Section RetryFacts.
Context `{Runtime}.







End RetryFacts.


(** ** Completed runs *)

Section Completed.
Context `{Runtime}.





(** C6, at the failing input.  With a key and both columns but no row in
    the frame, and no output file yet, the run creates the output file
    empty, writes nothing and then stops on the exception pandas raises for
    an empty file: a third way to halt before anything is committed. *)
Theorem run_empty_frame_halts (api : oracle) (min_conf : float) :
  let df := {| columns := [ u "title"; u "content" ]; records := [] |} in
  let o := run Example.key api df Example.out_path min_conf ∅ in
  status o = Some ExportError
  /\ files o !! Example.out_path = Some []
  /\ log o = [].
Proof.
  intros df o. unfold o.
  rewrite run_past_checks.
  - split; [reflexivity|]. split; [apply lookup_insert_eq | reflexivity].
  - discriminate.
  - apply list_elem_of_In. left. reflexivity.
  - apply list_elem_of_In. right. left. reflexivity.
Qed.

End Completed.

(** ** The statements at work on the example data *)










(** * Further properties *)

(** ** The prefilter on keywords *)

Section KeywordFacts.
Context `{Runtime}.

Lemma lower_from_ascii (w : pystr) : forall before rest : pystr,
  Forall (fun c => c < 128) w ->
  lower_from before (w ++ rest)
  = ascii_lower w ++ lower_from (before ++ w) rest.
Proof.
  induction w as [|c w IH]; intros before rest Hw.
  - simpl. now rewrite app_nil_r.
  - apply Forall_cons in Hw as [Hc Hw].
    change (lower_from before ((c :: w) ++ rest))
      with ((if (65 <=? c) && (c <=? 90) then [c + 32]
             else if c <? 128 then [c]
             else ucd_lower before c (w ++ rest))
            ++ lower_from (before ++ [c]) (w ++ rest)).
    rewrite (IH (before ++ [c]) rest Hw), <- app_assoc.
    apply N.ltb_lt in Hc. rewrite Hc. simpl.
    destruct ((65 <=? c) && (c <=? 90)); reflexivity.
Qed.

(** Lower-casing leaves an ASCII word in the middle of a text in one
    piece. *)
Lemma lower_from_infix (a : pystr) : forall before w rest : pystr,
  Forall (fun c => c < 128) w ->
  exists x y, lower_from before (a ++ w ++ rest) = x ++ ascii_lower w ++ y.
Proof.
  induction a as [|c a IH]; intros before w rest Hw.
  - exists [], (lower_from (before ++ w) rest). simpl.
    now apply lower_from_ascii.
  - destruct (IH (before ++ [c]) w rest Hw) as (x & y & E).
    change (lower_from before ((c :: a) ++ w ++ rest))
      with ((if (65 <=? c) && (c <=? 90) then [c + 32]
             else if c <? 128 then [c]
             else ucd_lower before c (a ++ w ++ rest))
            ++ lower_from (before ++ [c]) (a ++ w ++ rest)).
    rewrite E. eexists (_ ++ x), y. now rewrite <- app_assoc.
Qed.

Lemma maybe_elderly_en_hint (k text : pystr) :
  In k EN_HINTS -> contains k (lower text) = true -> maybe_elderly text = true.
Proof.
  intros Hk Hc. unfold maybe_elderly.
  replace (existsb (fun k0 => contains k0 (lower text)) EN_HINTS) with true;
    [reflexivity|].
  symmetry. apply existsb_exists. exists k. split; assumption.
Qed.

(** X1. A keyword anywhere in the text makes the prefilter say yes: an
    English keyword in any mix of upper and lower case ASCII letters, a
    Chinese keyword as it is written. *)
Theorem keyword_anywhere (k w before after : pystr) :
  (In k EN_HINTS /\ Forall (fun c => c < 128) w /\ ascii_lower w = k)
  \/ (In k CN_HINTS /\ w = k) ->
  maybe_elderly (before ++ w ++ after) = true.
Proof.
  intros [(Hk & Hw & <-) | (Hk & ->)].
  - apply (maybe_elderly_en_hint (ascii_lower w)); [exact Hk|].
    destruct (lower_from_infix before [] w after Hw) as (x & y & E).
    unfold lower. rewrite E. apply contains_infix.
  - apply (maybe_elderly_cn_hint k); [exact Hk | apply contains_infix].
Qed.

(** X2. On a text without a backslash the prefilter says yes exactly when a
    keyword occurs: an English one in the lower-cased text or a Chinese one
    in the text.  The two age patterns add nothing there. *)
Theorem maybe_elderly_plain_text (text : pystr) :
  ~ In backslash text -> ~ In backslash (lower text) ->
  (maybe_elderly text = true
   <-> (exists k, In k EN_HINTS /\ contains k (lower text) = true)
       \/ (exists k, In k CN_HINTS /\ contains k text = true)).
Proof.
  intros Ht Hl. split.
  - intros Hm. apply maybe_elderly_true_inv in Hm as [?|[?|[?|?]]]; tauto.
  - intros [(k & Hk & Hc) | (k & Hk & Hc)].
    + now apply (maybe_elderly_en_hint k).
    + now apply (maybe_elderly_cn_hint k).
Qed.

End KeywordFacts.

Lemma keyword_anywhere_witness :
  ((In (u "nursing home") EN_HINTS
    /\ Forall (fun c => c < 128) (u "Nursing HOME")
    /\ ascii_lower (u "Nursing HOME") = u "nursing home")
   \/ (In (u "nursing home") CN_HINTS /\ u "Nursing HOME" = u "nursing home"))
  /\ maybe_elderly (u "Mum moved to a " ++ u "Nursing HOME" ++ u " in May")
     = true.
Proof.
  assert (Hyp : (In (u "nursing home") EN_HINTS
                 /\ Forall (fun c => c < 128) (u "Nursing HOME")
                 /\ ascii_lower (u "Nursing HOME") = u "nursing home")
                \/ (In (u "nursing home") CN_HINTS
                    /\ u "Nursing HOME" = u "nursing home")).
  { left. split; [vm_compute; tauto|]. split; [|vm_compute; reflexivity].
    vm_compute. repeat constructor. }
  split; [exact Hyp|].
  apply (keyword_anywhere (u "nursing home") (u "Nursing HOME")
           (u "Mum moved to a ") (u " in May") Hyp).
Defined.

Lemma maybe_elderly_plain_text_witness :
  ~ In backslash (u "my car broke down at 82 mph")
  /\ ~ In backslash (lower (u "my car broke down at 82 mph"))
  /\ (maybe_elderly (u "my car broke down at 82 mph") = true
      <-> (exists k, In k EN_HINTS
                     /\ contains k (lower (u "my car broke down at 82 mph"))
                        = true)
          \/ (exists k, In k CN_HINTS
                        /\ contains k (u "my car broke down at 82 mph") = true)).
Proof.
  assert (H1 : ~ In backslash (u "my car broke down at 82 mph")).
  { vm_compute. intuition discriminate. }
  assert (H2 : ~ In backslash (lower (u "my car broke down at 82 mph"))).
  { vm_compute. intuition discriminate. }
  split; [exact H1|]. split; [exact H2|].
  apply (maybe_elderly_plain_text (u "my car broke down at 82 mph") H1 H2).
Defined.

(** ** Retries, replies and prompts *)

Section RetryMore.
Context `{Runtime}.

(** The events of the failed attempts [j], [j+1], ..., [j+k-1]. *)
Lemma attempts_first_success (call : nat -> option out) (i : nat) (k : nat) :
  forall (n j : nat) (o : out),
  (k < n)%nat ->
  (forall a, (j <= a < j + k)%nat -> call a = None) ->
  call (j + k)%nat = Some o ->
  attempts call i (seq j n)
  = (Some o,
     flat_map (fun a => [ ApiCall i a; Sleep (2 ^ N.of_nat a) ]) (seq j k)
     ++ [ ApiCall i (j + k) ]).
Proof.
  induction k as [|k IH]; intros n j o Hn Hfail Hok.
  - destruct n as [|n]; [lia|]. rewrite Nat.add_0_r in Hok.
    cbn [seq attempts]. rewrite Hok, Nat.add_0_r. reflexivity.
  - destruct n as [|n]; [lia|]. cbn [seq attempts].
    rewrite (Hfail j) by lia.
    assert (Hn' : (k < n)%nat) by lia.
    assert (Hfail' : forall a, (S j <= a < S j + k)%nat -> call a = None)
      by (intros a Ha; apply Hfail; lia).
    assert (Hok' : call (S j + k)%nat = Some o)
      by (rewrite <- Hok; f_equal; lia).
    rewrite (IH n (S j) o Hn' Hfail' Hok').
    replace (j + S k)%nat with (S j + k)%nat by lia. reflexivity.
Qed.

Lemma attempts_all_fail (call : nat -> option out) (i : nat) (n : nat) :
  forall j : nat,
  (forall a, (j <= a < j + n)%nat -> call a = None) ->
  attempts call i (seq j n)
  = (None,
     flat_map (fun a => [ ApiCall i a; Sleep (2 ^ N.of_nat a) ]) (seq j n)).
Proof.
  induction n as [|n IH]; intros j Hfail; [reflexivity|].
  cbn [seq attempts]. rewrite (Hfail j) by lia.
  rewrite (IH (S j)) by (intros a Ha; apply Hfail; lia).
  reflexivity.
Qed.

Lemma slept_app (l1 l2 : list event) : slept (l1 ++ l2) = slept l1 + slept l2.
Proof.
  induction l1 as [|e l1 IH]; [reflexivity|].
  simpl. rewrite IH. destruct e; lia.
Qed.

Lemma api_calls_app (l1 l2 : list event) :
  api_calls (l1 ++ l2) = (api_calls l1 + api_calls l2)%nat.
Proof. unfold api_calls. now rewrite List.filter_app, length_app. Qed.

Lemma retries_cost (i : nat) (k : nat) : forall j : nat,
  let ev := flat_map (fun a => [ ApiCall i a; Sleep (2 ^ N.of_nat a) ])
              (seq j k) in
  slept ev + 2 ^ N.of_nat j = 2 ^ N.of_nat (j + k)
  /\ api_calls ev = k.
Proof.
  induction k as [|k IH]; intros j ev.
  - unfold ev. simpl. rewrite Nat.add_0_r. split; [lia | reflexivity].
  - destruct (IH (S j)) as [Hs Hc]. unfold ev. cbn [seq flat_map app].
    split.
    + cbn [slept fold_right]. fold (slept
        (flat_map (fun a => [ ApiCall i a; Sleep (2 ^ N.of_nat a) ])
           (seq (S j) k))).
      replace (N.of_nat (j + S k)) with (N.of_nat (S j + k)) by lia.
      replace (N.of_nat (S j)) with (N.succ (N.of_nat j)) in Hs by lia.
      rewrite N.pow_succ_r' in Hs. lia.
    + unfold api_calls in *. cbn [List.filter is_api_call length].
      now rewrite Hc.
Qed.

(** X3. For a row that passes the prefilter, if attempt [k] (counted from
    0) is the first to succeed, its dict is the one written, after exactly
    [k + 1] calls and [2 ** k - 1] seconds of sleep in all; when all five
    fail, five calls and 31 seconds. *)
Theorem retry_cost (api : oracle) (cols : list pystr) (i : nat)
    (row : list cell) :
  let title := field cols row (u "title") in
  let content := field cols row (u "content") in
  let call := try_body api i title content (row_text cols row) in
  maybe_elderly (row_text cols row) = true ->
  (forall k o,
     (k < 5)%nat -> (forall a, (a < k)%nat -> call a = None) ->
     call k = Some o ->
     fst (process_row api cols i row) = o
     /\ api_calls (snd (process_row api cols i row)) = S k
     /\ slept (snd (process_row api cols i row)) = 2 ^ N.of_nat k - 1)
  /\ ((forall a, (a < 5)%nat -> call a = None) ->
      fst (process_row api cols i row) = api_failed i title content
      /\ api_calls (snd (process_row api cols i row)) = 5%nat
      /\ slept (snd (process_row api cols i row)) = 31).
Proof.
  intros title content call Hpos. unfold process_row. rewrite Hpos.
  cbn [negb]. fold title content call. split.
  - intros k o Hk Hfail Hok.
    rewrite (attempts_first_success call i k 5 0 o Hk)
      by (try assumption; intros a Ha; apply Hfail; lia).
    destruct (retries_cost i k 0) as [Hs Hc]. cbn zeta in Hs, Hc.
    cbn [fst snd default].
    change (Prefilter i :: ?l) with ([Prefilter i] ++ l).
    split; [reflexivity|].
    rewrite !api_calls_app, !slept_app, Hc.
    change (api_calls [Prefilter i]) with 0%nat.
    change (api_calls [ApiCall i (0 + k)]) with 1%nat.
    change (slept [Prefilter i]) with 0.
    change (slept [ApiCall i (0 + k)]) with 0.
    split; [lia|]. simpl N.of_nat in Hs. simpl Nat.add in Hs.
    change (2 ^ 0) with 1 in Hs. lia.
  - intros Hfail.
    rewrite (attempts_all_fail call i 5 0)
      by (intros a Ha; apply Hfail; lia).
    repeat split.
Qed.

(** What makes an attempt count: the reply must be an object whose
    confidence, or 0 when it has none, converts to a float. *)
Lemma try_body_spec (api : oracle) (i : nat) (title content text : pystr)
    (attempt : nat) (o : out) :
  try_body api i title content text attempt = Some o
  <-> exists parsed conf,
        api i attempt (take 4000 text) = Some parsed
        /\ to_float (default (JInt 0) (parsed !! u "confidence")) = Some conf
        /\ o = {| row_id := i;
                  label := default (JStr (u "uncertain")) (parsed !! u "label");
                  confidence := conf;
                  reason := default (JStr []) (parsed !! u "reason");
                  title := title;
                  content := content |}.
Proof.
  unfold try_body, reply_out.
  destruct (api i attempt (take 4000 text)) as [parsed|]; cbn [mbind option_bind].
  - destruct (to_float (default (JInt 0) (parsed !! u "confidence")))
      as [conf|] eqn:Ec; cbn [mbind option_bind].
    + split.
      * intros [= <-]. exists parsed, conf. auto.
      * intros (p & c & [= <-] & Ec' & ->). rewrite Ec in Ec'.
        injection Ec' as <-. reflexivity.
    + split; [discriminate|].
      intros (p & c & [= <-] & Ec' & _). rewrite Ec in Ec'. discriminate.
  - split; [discriminate | intros (p & c & E & _); discriminate].
Qed.

(** X4. A reply that parses but whose confidence does not convert to a
    float counts as a failed attempt like any other: when every reply for a
    row is of that kind, the row is written as [uncertain], 0.0,
    "API failed" after five calls; the label and the reason of the replies
    are dropped. *)
Theorem unusable_reply_is_failure (api : oracle) (cols : list pystr) (i : nat)
    (row : list cell) :
  maybe_elderly (row_text cols row) = true ->
  (forall a, (a < 5)%nat ->
     exists parsed,
       api i a (take 4000 (row_text cols row)) = Some parsed
       /\ to_float (default (JInt 0) (parsed !! u "confidence")) = None) ->
  fst (process_row api cols i row)
  = {| row_id := i;
       label := JStr (u "uncertain");
       confidence := float_of_Q 0;
       reason := JStr (u "API failed");
       title := field cols row (u "title");
       content := field cols row (u "content") |}
  /\ api_calls (snd (process_row api cols i row)) = 5%nat.
Proof.
  intros Hpos Hbad. unfold process_row. rewrite Hpos. cbn [negb].
  rewrite (attempts_all_fail _ i 5 0).
  - split; reflexivity.
  - intros a Ha. destruct (Hbad a ltac:(lia)) as (parsed & Hp & Hc).
    unfold try_body, reply_out. rewrite Hp. cbn [mbind option_bind].
    rewrite Hc. reflexivity.
Qed.



End RetryMore.

Lemma retry_cost_witness :
  maybe_elderly (row_text (columns Example.df) Example.nursing_row) = true
  /\ fst (process_row Example2.api_second (columns Example.df) 2
            Example.nursing_row)
     = Example2.nursing_out
  /\ api_calls (snd (process_row Example2.api_second (columns Example.df) 2
                       Example.nursing_row)) = 2%nat
  /\ slept (snd (process_row Example2.api_second (columns Example.df) 2
                   Example.nursing_row)) = 1.
Proof.
  assert (Hpos : maybe_elderly
                   (row_text (columns Example.df) Example.nursing_row) = true)
    by (vm_compute; reflexivity).
  split; [exact Hpos|].
  destruct (retry_cost Example2.api_second (columns Example.df) 2
              Example.nursing_row Hpos) as [Hfirst _].
  destruct (Hfirst 1%nat Example2.nursing_out) as (Ho & Hc & Hs).
  - lia.
  - intros a Ha. destruct a as [|a]; [reflexivity | lia].
  - vm_compute. reflexivity.
  - split; [exact Ho|]. split; [exact Hc | exact Hs].
Defined.

Lemma unusable_reply_is_failure_witness :
  maybe_elderly (row_text (columns Example.df) Example.nursing_row) = true
  /\ (forall a, (a < 5)%nat ->
        exists parsed,
          Example2.api_vague 2%nat a
            (take 4000 (row_text (columns Example.df) Example.nursing_row))
          = Some parsed
          /\ to_float (default (JInt 0) (parsed !! u "confidence")) = None)
  /\ api_calls (snd (process_row Example2.api_vague (columns Example.df) 2
                       Example.nursing_row)) = 5%nat.
Proof.
  assert (Hpos : maybe_elderly
                   (row_text (columns Example.df) Example.nursing_row) = true)
    by (vm_compute; reflexivity).
  assert (Hbad : forall a, (a < 5)%nat ->
            exists parsed,
              Example2.api_vague 2%nat a
                (take 4000 (row_text (columns Example.df) Example.nursing_row))
              = Some parsed
              /\ to_float (default (JInt 0) (parsed !! u "confidence")) = None).
  { intros a _. exists Example2.vague_reply. split; [reflexivity|].
    vm_compute. reflexivity. }
  split; [exact Hpos|]. split; [exact Hbad|].
  apply (unusable_reply_is_failure Example2.api_vague (columns Example.df) 2
           Example.nursing_row Hpos Hbad).
Defined.


(** ** What a run writes, and where *)

Section WriteFacts.
Context `{Runtime}.






(** X7. A run touches no other file than the output file and the subset
    file, and the subset file only when it completes. *)
Theorem other_files_untouched (API_KEY : pystr) (api : oracle) (df : dataframe)
    (output_path : path) (min_conf : float) (fs : gmap (list string) csv_file) :
  let o := run API_KEY api df output_path min_conf fs in
  (forall p, p <> output_path -> p <> subset_path output_path ->
             files o !! p = fs !! p)
  /\ (status o <> None -> subset_path output_path <> output_path ->
      files o !! subset_path output_path = fs !! subset_path output_path).
Proof.
  intros o. unfold o, run.
  destruct (bool_decide (API_KEY = [])); [split; reflexivity|].
  destruct (negb _); [split; reflexivity|].
  destruct (export _ min_conf); simpl.
  - split.
    + intros p Hp Hs. now rewrite !lookup_insert_ne by congruence.
    + intros Hst. congruence.
  - split.
    + intros p Hp Hs. now rewrite lookup_insert_ne by congruence.
    + intros _ Hne. now rewrite lookup_insert_ne by congruence.
Qed.


(** X9. The two checks at the head of [run], in their order: without a key
    the run stops with the first error whatever the columns are, with a key
    and a missing column with the second; in both cases no file is created
    or changed and nothing is evaluated.  Past the checks the output file
    exists afterwards, whatever else happens. *)
Theorem fatal_checks (API_KEY : pystr) (api : oracle) (df : dataframe)
    (output_path : path) (min_conf : float) (fs : gmap (list string) csv_file) :
  let o := run API_KEY api df output_path min_conf fs in
  (status o = Some ConfigurationError <-> API_KEY = [])
  /\ (status o = Some InputSchemaError
      <-> API_KEY <> []
          /\ ~ (u "title" ∈ columns df /\ u "content" ∈ columns df))
  /\ (status o = Some ConfigurationError \/ status o = Some InputSchemaError ->
      files o = fs /\ log o = [])
  /\ (status o <> Some ConfigurationError ->
      status o <> Some InputSchemaError ->
      is_Some (files o !! output_path)).
Proof.
  intros o.
  destruct (run_fatal_before_rows API_KEY api df output_path min_conf fs)
    as (Hconf & Hschema & Hnone).
  fold o in Hconf, Hschema, Hnone.
  split; [exact Hconf|]. split; [exact Hschema|]. split; [exact Hnone|].
  intros H1 H2.
  assert (Hk : API_KEY <> []) by (intros E; apply H1, Hconf, E).
  destruct (decide (u "title" ∈ columns df)) as [Ht|Ht];
    [|exfalso; apply H2, Hschema; tauto].
  destruct (decide (u "content" ∈ columns df)) as [Hc|Hc];
    [|exfalso; apply H2, Hschema; tauto].
  unfold o. rewrite run_past_checks by assumption.
  destruct (export _ min_conf); simpl.
  - destruct (decide (subset_path output_path = output_path)) as [->|Hne].
    + rewrite lookup_insert_eq. eauto.
    + rewrite lookup_insert_ne by assumption. rewrite lookup_insert_eq. eauto.
  - rewrite lookup_insert_eq. eauto.
Qed.




End WriteFacts.

(** ** The checkpoint across runs *)

Section CheckpointMore.
Context `{Runtime}.












End CheckpointMore.

(** ** The export *)

Section ExportMore.
Context `{Runtime}.




End ExportMore.


(** ** Paths and configuration *)

Lemma removelast_snoc (A : Type) (l : list A) (x : A) :
  removelast (l ++ [x]) = l.
Proof. apply removelast_last. Qed.

(** X17. The subset goes to the file named
    "elderly_llm_filtered_confident.csv" in the directory of the output
    file.  It is the output file itself exactly when the output file has
    that name; in every other case the two are different files of one
    directory. *)
Theorem subset_path_alias (output_path : path) :
  (subset_path output_path = output_path
   <-> last output_path = Some SUBSET_NAME)
  /\ removelast (subset_path output_path) = removelast output_path
  /\ last (subset_path output_path) = Some SUBSET_NAME
  /\ subset_path (subset_path output_path) = subset_path output_path.
Proof.
  unfold subset_path. rewrite removelast_snoc, last_snoc.
  split; [|auto].
  destruct output_path as [|c p] using rev_ind.
  - split; discriminate.
  - rewrite removelast_snoc, last_snoc. split.
    + intros E. apply app_inj_tail in E as [_ ->]. reflexivity.
    + intros [= ->]. reflexivity.
Qed.

Section DefaultPaths.
Import Config.

(** X18. The default paths need the module to lie at least three
    directories deep.  Then the input, the output and the subset are three
    different files of the directory Data/Depression_Dataset under the
    project root, so a run on the defaults can overwrite neither its input
    nor its full output with the subset; the input is the cleaned data set
    when that exists and the raw one otherwise. *)
Theorem default_paths (here : path) (fs : gmap (list string) csv_file) :
  (default_io_paths here fs = None <-> (length here <= 3)%nat)
  /\ forall input_path output_path,
       default_io_paths here fs = Some (input_path, output_path) ->
       let base := take (length here - 3) here
                   ++ [ "Data"; "Depression_Dataset" ]%string in
       output_path = base ++ [ "elderly_llm_filtered.csv" ]%string
       /\ subset_path output_path = base ++ [ SUBSET_NAME ]
       /\ (input_path = base ++ [ "dataset_clean.csv" ]%string
           /\ is_Some (fs !! input_path)
           \/ input_path = base ++ [ "dataset.csv" ]%string
              /\ fs !! (base ++ [ "dataset_clean.csv" ]%string) = None)
       /\ output_path <> subset_path output_path
       /\ input_path <> output_path
       /\ input_path <> subset_path output_path.
Proof.
  unfold default_io_paths, parents.
  destruct (decide (3 < length here)%nat) as [Hlen|Hlen]; cbn [mbind option_bind].
  2: { split; [split; [lia | reflexivity] | discriminate]. }
  split; [split; [discriminate | lia]|].
  intros input_path output_path [= <- <-].
  replace (length here - 1 - 2)%nat with (length here - 3)%nat by lia.
  set (base := take (length here - 3) here
               ++ [ "Data"; "Depression_Dataset" ]%string).
  assert (Hsub : subset_path (base ++ [ "elderly_llm_filtered.csv" ]%string)
                 = base ++ [ SUBSET_NAME ]).
  { unfold subset_path. now rewrite removelast_snoc. }
  cbv zeta. rewrite Hsub.
  split; [reflexivity|]. split; [reflexivity|].
  assert (Hne : forall a b : string, a <> b -> base ++ [a] <> base ++ [b]).
  { intros a b Hab E. apply app_inj_tail in E as [_ E]. contradiction. }
  split; [|split; [apply Hne; discriminate|]].
  - destruct (bool_decide_reflect
                (is_Some (fs !! (base ++ [ "dataset_clean.csv" ]%string))))
      as [Hex | Hex].
    + left. auto.
    + right. split; [reflexivity|]. now apply eq_None_not_Some.
  - destruct (bool_decide _); split; apply Hne; discriminate.
Qed.

(** X19. Where the API key comes from.  A value in the process environment
    wins, also an empty one; otherwise the value of config/.env counts when
    that file exists, and only when it does not, the value of the [.env]
    file found elsewhere.  When what results is empty, [run] stops with the
    configuration error before anything else: so it does for a config/.env
    without the key, even if another [.env] file has one. *)
Theorem api_key_resolution
    (config_env found_env : option (gmap string (list N)))
    (env : gmap string (list N)) :
  let key := API_KEY (module_settings config_env found_env env) in
  (forall v, env !! "LLM_API_KEY"%string = Some v -> key = v)
  /\ (forall file,
        env !! "LLM_API_KEY"%string = None -> config_env = Some file ->
        key = default [] (file !! "LLM_API_KEY"%string))
  /\ (env !! "LLM_API_KEY"%string = None -> config_env = None ->
      key = default [] (found_env ≫= (fun file => file !! "LLM_API_KEY"%string)))
  /\ (key = [] ->
      forall (R : Runtime) (api : @oracle R) (df : @dataframe R)
             (output_path : path) (min_conf : @float R)
             (fs : gmap (list string) csv_file),
        @run R key api df output_path min_conf fs
        = {| status := Some ConfigurationError; files := fs; log := [] |}).
Proof.
  intros key. unfold key, module_settings, load_env_from_config, load_dotenv,
    getenv. cbn [API_KEY].
  repeat split.
  - intros v Hv. destruct config_env as [f|]; [|destruct found_env as [f|]].
    1,2: rewrite (lookup_union_Some_l _ _ _ _ Hv); reflexivity.
    now rewrite Hv.
  - intros file Hn ->. rewrite lookup_union_r by exact Hn.
    destruct (file !! "LLM_API_KEY"%string); reflexivity.
  - intros Hn ->. destruct found_env as [f|]; cbn.
    + rewrite lookup_union_r by exact Hn.
      destruct (f !! "LLM_API_KEY"%string); reflexivity.
    + now rewrite Hn.
  - intros Hempty R api df output_path min_conf fs. unfold run.
    now rewrite bool_decide_true by exact Hempty.
Qed.

End DefaultPaths.

Lemma default_paths_witness :
  Config.default_io_paths Example2.here ∅
  = Some ([ "/"; "repo"; "Data"; "Depression_Dataset"; "dataset.csv" ]%string,
          [ "/"; "repo"; "Data"; "Depression_Dataset";
            "elderly_llm_filtered.csv" ]%string)
  /\ [ "/"; "repo"; "Data"; "Depression_Dataset";
       "elderly_llm_filtered.csv" ]%string
     <> subset_path [ "/"; "repo"; "Data"; "Depression_Dataset";
                      "elderly_llm_filtered.csv" ]%string.
Proof.
  assert (Hd : Config.default_io_paths Example2.here ∅
               = Some ([ "/"; "repo"; "Data"; "Depression_Dataset";
                         "dataset.csv" ]%string,
                       [ "/"; "repo"; "Data"; "Depression_Dataset";
                         "elderly_llm_filtered.csv" ]%string))
    by (vm_compute; reflexivity).
  split; [exact Hd|].
  apply (proj2 (default_paths Example2.here ∅) _ _ Hd).
Defined.

(** ** Missing and empty cells *)

Section CellFacts.
Context `{Runtime}.

(** X20. A missing title or content is not replaced by the empty text: the
    missing value counts as true, so the fallback of [or ""] does not apply
    and the text written is "nan".  A row with neither title nor content is
    therefore judged on the text "nan", two line breaks, "nan": the
    prefilter says no and the row is written as [not_elderly] without a
    call.  The fallback does apply to a cell that is zero, false or empty,
    which is written as the empty text. *)
Theorem missing_cells (api : oracle) (cols : list pystr) (i : nat)
    (row : list cell) (jt jc : nat) :
  first_index (u "title") cols = Some jt ->
  first_index (u "content") cols = Some jc ->
  (row !! jt = Some CNaN -> field cols row (u "title") = u "nan")
  /\ (row !! jt = Some CNaN -> row !! jc = Some CNaN ->
      process_row api cols i row
      = ({| row_id := i;
            label := JStr (u "not_elderly");
            confidence := float_of_Q (3 # 10);
            reason := JStr (u "keyword prefilter negative");
            title := u "nan";
            content := u "nan" |},
         [Prefilter i]))
  /\ (row !! jt = Some (CInt 0) \/ row !! jt = Some (CBool false)
      \/ row !! jt = Some (CStr []) ->
      field cols row (u "title") = []).
Proof.
  intros Ht Hc.
  assert (Hnan : forall key j, first_index key cols = Some j ->
                               row !! j = Some CNaN ->
                               field cols row key = u "nan").
  { intros key j Hj Hr. unfold field, series_get. now rewrite Hj, Hr. }
  split; [intros Hr; now apply (Hnan _ jt)|]. split.
  - intros Hrt Hrc. unfold process_row, row_text.
    rewrite (Hnan _ jt Ht Hrt), (Hnan _ jc Hc Hrc).
    replace (maybe_elderly (strip (u "nan" ++ [10; 10] ++ u "nan")))
      with false by (vm_compute; reflexivity).
    reflexivity.
  - unfold field, series_get. rewrite Ht.
    intros [-> | [-> | ->]]; reflexivity.
Qed.

End CellFacts.

(** ** The further statements at work on the example data *)

Lemma missing_cells_witness :
  first_index (u "title") (columns Example.df) = Some 1%nat
  /\ first_index (u "content") (columns Example.df) = Some 2%nat
  /\ Example2.blank_row !! 1%nat = Some CNaN
  /\ Example2.blank_row !! 2%nat = Some CNaN
  /\ render (fst (process_row Example.api_first_only (columns Example.df) 3
                    Example2.blank_row))
     = map u [ "3"; "not_elderly"; "0.3"; "keyword prefilter negative";
               "nan"; "nan" ]%string.
Proof.
  assert (Ht : first_index (u "title") (columns Example.df) = Some 1%nat)
    by (vm_compute; reflexivity).
  assert (Hc : first_index (u "content") (columns Example.df) = Some 2%nat)
    by (vm_compute; reflexivity).
  split; [exact Ht|]. split; [exact Hc|].
  split; [reflexivity|]. split; [reflexivity|].
  destruct (missing_cells Example.api_first_only (columns Example.df) 3
              Example2.blank_row 1 2 Ht Hc) as (_ & Hrow & _).
  rewrite (Hrow eq_refl eq_refl). vm_compute. reflexivity.
Defined.








